(** * porydex.db.schema.pokemon: the Pokémon tables and the current-generation rule

    A shallow embedding of [src/porydex/db/schema/pokemon.py].  The file has
    two layers, as the source has:

    - the mapped classes as the ORM hands them to Python code (records for
      rows, the session's [generation_id], the hybrid property
      [_current_generation_id] in both of its forms, the relationship
      [_current_gpf] and the two association proxies [types] and
      [all_types]);
    - the declarative table metadata (columns, foreign keys and the
      class-level attribute holding the table-wide constraints) together
      with the checks a storage engine runs on INSERT. *)

From stdpp Require Import gmap strings list fin_maps.
From Stdlib Require Import ZArith Lia Ascii.

Local Open Scope Z_scope.

(** ** Python outcomes *)

Inductive exn : Set :=
| ValueError
| NotFound
| IntegrityError
| OverflowError.

Inductive outcome (A : Type) : Type :=
| Returns (a : A)
| Raises (e : exn).
Arguments Returns {A} a.
Arguments Raises {A} e.

(** ** SQL values: [None] is NULL, comparisons are three-valued *)

Definition coalesce (a b : option Z) : option Z :=
  match a with
  | Some _ => a
  | None => b
  end.

Definition sql_eq (a b : option Z) : option bool :=
  match a, b with
  | Some x, Some y => Some (bool_decide (x = y))
  | _, _ => None
  end.

Definition and_ (a b : option bool) : option bool :=
  match a, b with
  | Some false, _ | _, Some false => Some false
  | Some true, Some true => Some true
  | _, _ => None
  end.

(** A row passes a WHERE or ON clause only when the clause is true; both
    false and unknown drop it. *)
Definition is_true (c : option bool) : bool :=
  match c with
  | Some true => true
  | _ => false
  end.

(** The MAX aggregate: NULL inputs are skipped, no input gives NULL. *)
Definition sql_max (l : list (option Z)) : option Z :=
  foldl (fun acc v =>
           match acc, v with
           | Some a, Some b => Some (Z.max a b)
           | None, _ => v
           | _, None => acc
           end) None l.

(** ** Mapped rows *)

(** A [Type] row is only ever carried around here, so its key stands for it. *)
Definition Type_ : Set := Z.

Module Session.
(** The unit of work; [generation_id] is [None] until a caller sets it. *)
Record t : Set := { generation_id : option Z }.
End Session.

Module PokemonForm.
Record t : Set := {
  pokemon_id : Z;
  form_id : Z;
  identifier : string;
  is_default : bool;
  order : Z
}.
End PokemonForm.

Module GenerationPokemonForm.
(** [types] is the relationship through [pokemon_types], already ordered
    by slot. *)
Record t : Set := {
  generation_id : Z;
  pokemon_id : Z;
  form_id : Z;
  types : list Type_
}.

Definition primary_key (g : t) : Z * Z * Z :=
  (generation_id g, pokemon_id g, form_id g).
End GenerationPokemonForm.

(** The tables the accessors below read. *)
Record Database : Set := {
  pokemon_forms : list PokemonForm.t;
  generation_pokemon_forms : list GenerationPokemonForm.t
}.

(** The primary key of [generation_pokemon_forms] is declared on
    (generation_id, pokemon_id, form_id). *)
Definition primary_key_unique (db : Database) : Prop :=
  NoDup (GenerationPokemonForm.primary_key <$> generation_pokemon_forms db).

(** ** The per-generation collection *)

(** Rows of [generation_pokemon_forms] that belong to a form. *)
Definition belongs_to (self : PokemonForm.t) (g : GenerationPokemonForm.t) : bool :=
  bool_decide (GenerationPokemonForm.pokemon_id g = PokemonForm.pokemon_id self)
  && bool_decide (GenerationPokemonForm.form_id g = PokemonForm.form_id self).

(** A Python dict filled in load order: a later item replaces an earlier one
    under the same key. *)
Definition dict_of {V : Type} (items : list (Z * V)) : gmap Z V :=
  foldl (fun d kv => <[kv.1 := kv.2]> d) ∅ items.

(** Modelled from the spec: the [_by_generation] relationship comes from the
    [ExistsByGeneration] mixin of [porydex.db.util], which is not part of the
    source at hand.  The spec has it as the mapping from every generation the
    form has a row in to that row; the class it collects is the one named by
    [_by_generation_class_name = 'GenerationPokemonForm']. *)
Definition _by_generation (db : Database) (self : PokemonForm.t)
  : gmap Z GenerationPokemonForm.t :=
  dict_of ((fun g => (GenerationPokemonForm.generation_id g, g))
             <$> filter (fun g => belongs_to self g = true)
                        (generation_pokemon_forms db)).

(** Python's [max] over an iterable: [ValueError] when it is empty. *)
Definition max (l : list Z) : outcome Z :=
  match l with
  | [] => Raises ValueError
  | x :: l' => Returns (foldl Z.max x l')
  end.

Definition keys {V : Type} (d : gmap Z V) : list Z := (map_to_list d).*1.

(** ** PokemonForm._current_generation_id, instance level *)

(** [object_session(self)] is the session [s] the form was loaded in. *)
Definition _current_generation_id
    (s : Session.t) (db : Database) (self : PokemonForm.t) : outcome Z :=
  let generation_id := Session.generation_id s in
  match generation_id with
  | Some generation_id => Returns generation_id
  | None => max (keys (_by_generation db self))
  end.

(** ** PokemonForm._current_generation_id, class level (the SQL expression) *)

(** [latest_gen]: the correlated scalar subquery
    SELECT max(generation_id) FROM generation_pokemon_forms
    WHERE pokemon_id = class_.pokemon_id AND form_id = class_.form_id. *)
Definition latest_gen (db : Database) (class_ : PokemonForm.t) : option Z :=
  sql_max
    ((fun g => Some (GenerationPokemonForm.generation_id g))
       <$> filter (fun g =>
                     is_true (sql_eq (Some (GenerationPokemonForm.form_id g))
                                     (Some (PokemonForm.form_id class_))) = true)
             (filter (fun g =>
                        is_true (sql_eq (Some (GenerationPokemonForm.pokemon_id g))
                                        (Some (PokemonForm.pokemon_id class_))) = true)
                (generation_pokemon_forms db))).

(** [session_gen] is the bind parameter [session_generation_id]. *)
Definition _current_generation_id_expression
    (session_gen : option Z) (db : Database) (class_ : PokemonForm.t) : option Z :=
  coalesce session_gen (latest_gen db class_).

(** ** The relationship _current_gpf and the association proxies *)

Definition primaryjoin (session_gen : option Z) (db : Database)
    (pf : PokemonForm.t) (gpf : GenerationPokemonForm.t) : option bool :=
  and_ (sql_eq (Some (PokemonForm.pokemon_id pf))
               (Some (GenerationPokemonForm.pokemon_id gpf)))
    (and_ (sql_eq (Some (PokemonForm.form_id pf))
                  (Some (GenerationPokemonForm.form_id gpf)))
          (sql_eq (_current_generation_id_expression session_gen db pf)
                  (Some (GenerationPokemonForm.generation_id gpf)))).

(** [uselist=False]: the first joined row, or nothing.  The session binds
    [session_generation_id] to its own [generation_id] when it runs the
    query. *)
Definition _current_gpf (s : Session.t) (db : Database) (self : PokemonForm.t)
  : option GenerationPokemonForm.t :=
  head (filter (fun g => is_true (primaryjoin (Session.generation_id s) db self g) = true)
               (generation_pokemon_forms db)).

(** A proxy over a scalar relationship reads the attribute off the target
    and gives [None] when there is no target. *)
Definition _scalar_get (target : option GenerationPokemonForm.t)
  : outcome (option (list Type_)) :=
  match target with
  | Some gpf => Returns (Some (GenerationPokemonForm.types gpf))
  | None => Returns None
  end.

(** [types = association_proxy('_current_gpf', 'types')] *)
Definition types (s : Session.t) (db : Database) (self : PokemonForm.t)
  : outcome (option (list Type_)) :=
  _scalar_get (_current_gpf s db self).

(** [all_types = association_proxy('_by_generation', 'types')]: the proxy
    over a dict keeps the keys and reads the attribute off each value. *)
Definition all_types (db : Database) (self : PokemonForm.t) : gmap Z (list Type_) :=
  GenerationPokemonForm.types <$> _by_generation db self.

(** ** A fixture: one form with rows in generations 1, 3 and 5 *)

Definition fixture_form : PokemonForm.t :=
  {| PokemonForm.pokemon_id := 35; PokemonForm.form_id := 0;
     PokemonForm.identifier := "clefairy"; PokemonForm.is_default := true;
     PokemonForm.order := 41 |}.

Definition fixture_row (g : Z) (T : list Type_) : GenerationPokemonForm.t :=
  {| GenerationPokemonForm.generation_id := g; GenerationPokemonForm.pokemon_id := 35;
     GenerationPokemonForm.form_id := 0; GenerationPokemonForm.types := T |}.

(** The last row is of another species. *)
Definition fixture_rows (T1 T3 T5 : list Type_) : list GenerationPokemonForm.t :=
  [ fixture_row 1 T1; fixture_row 3 T3; fixture_row 5 T5;
    {| GenerationPokemonForm.generation_id := 6; GenerationPokemonForm.pokemon_id := 36;
       GenerationPokemonForm.form_id := 0; GenerationPokemonForm.types := [18] |} ].

Definition fixture_db (T1 T3 T5 : list Type_) : Database :=
  {| pokemon_forms := [fixture_form];
     generation_pokemon_forms := fixture_rows T1 T3 T5 |}.

Definition no_generation : Session.t := {| Session.generation_id := None |}.
Definition in_generation (g : Z) : Session.t := {| Session.generation_id := Some g |}.


(** ** Localized names *)

Module Pokemon.
Record t : Set := {
  id : Z;
  identifier : string;
  preevolution_id : option Z;
  order : Z
}.
End Pokemon.

Module PokemonName.
Record t : Set := {
  language_id : Z;
  pokemon_id : Z;
  name : string
}.
End PokemonName.

Module PokemonFormName.
(** [name] is stored in the column [form_name]. *)
Record t : Set := {
  language_id : Z;
  pokemon_id : Z;
  form_id : Z;
  name : string;
  full_name : string
}.
End PokemonFormName.

Record NameTables : Set := {
  pokemon_names : list PokemonName.t;
  pokemon_form_names : list PokemonFormName.t
}.

(** Modelled from the spec: the [ByLanguage] mixin of
    [porydex.db.schema.language] is not part of the source at hand.  The spec
    has it as a keyed lookup, by language id, over the name rows an entity
    owns; the class of those rows is named by [_by_language_class_name]. *)
Class ByLanguage (A Name : Type) : Type := {
  _by_language : NameTables -> A -> gmap Z Name
}.

#[export] Instance Pokemon_ByLanguage : ByLanguage Pokemon.t PokemonName.t := {|
  _by_language tables self :=
    dict_of ((fun n => (PokemonName.language_id n, n))
               <$> filter (fun n => PokemonName.pokemon_id n = Pokemon.id self)
                          (pokemon_names tables))
|}.

#[export] Instance PokemonForm_ByLanguage : ByLanguage PokemonForm.t PokemonFormName.t := {|
  _by_language tables self :=
    dict_of ((fun n => (PokemonFormName.language_id n, n))
               <$> filter (fun n =>
                             PokemonFormName.pokemon_id n = PokemonForm.pokemon_id self
                             /\ PokemonFormName.form_id n = PokemonForm.form_id self)
                          (pokemon_form_names tables))
|}.

(** Modelled from the spec: the lookup itself, also from the missing
    [ByLanguage].  A requested language with a row gives that row; otherwise
    the process-wide fallback language is tried, when one is configured;
    with no row to give the lookup fails with NotFound. *)
Definition by_language {A Name : Type} `{!ByLanguage A Name} (fallback : option Z)
    (tables : NameTables) (self : A) (language_id : option Z) : outcome Name :=
  let names := _by_language tables self in
  let from_fallback :=
    match fallback with
    | Some fb =>
        match names !! fb with
        | Some n => Returns n
        | None => Raises NotFound
        end
    | None => Raises NotFound
    end in
  match language_id with
  | Some l =>
      match names !! l with
      | Some n => Returns n
      | None => from_fallback
      end
  | None => from_fallback
  end.

(** ** The default-form invariant *)



(** ** Reads *)

(** What the component offers to a caller; each is a SELECT or a walk over
    loaded rows, so the tables come back as they went in. *)
Inductive read : Type :=
| read_types (self : PokemonForm.t)
| read_all_types (self : PokemonForm.t)
| read_current_generation_id (self : PokemonForm.t)
| read_current_gpf (self : PokemonForm.t)
| read_pokemon_name (self : Pokemon.t) (language_id : option Z)
| read_form_name (self : PokemonForm.t) (language_id : option Z).

Inductive answer : Type :=
| ans_types (v : outcome (option (list Type_)))
| ans_all_types (v : gmap Z (list Type_))
| ans_generation_id (v : outcome Z)
| ans_gpf (v : option GenerationPokemonForm.t)
| ans_pokemon_name (v : outcome PokemonName.t)
| ans_form_name (v : outcome PokemonFormName.t).

Definition run (fallback : option Z) (s : Session.t) (names : NameTables)
    (db : Database) (q : read) : Database * answer :=
  match q with
  | read_types self => (db, ans_types (types s db self))
  | read_all_types self => (db, ans_all_types (all_types db self))
  | read_current_generation_id self =>
      (db, ans_generation_id (_current_generation_id s db self))
  | read_current_gpf self => (db, ans_gpf (_current_gpf s db self))
  | read_pokemon_name self l => (db, ans_pokemon_name (by_language fallback names self l))
  | read_form_name self l => (db, ans_form_name (by_language fallback names self l))
  end.

(** ** Table metadata *)

Module sa.
Inductive sqltype : Set := Integer | Unicode | Text | Boolean.

#[global] Instance sqltype_eq_dec : EqDecision sqltype.
Proof. solve_decision. Defined.

(** [sa.ForeignKeyConstraint(columns, refcolumns)]; a reference is written
    'table.column'. *)
Record ForeignKeyConstraint : Set := {
  columns : list string;
  refcolumns : list string
}.

(** [sa.Column(...)]: [name] is the explicit column name when one is given,
    [foreign_key] the target of [sa.ForeignKey], and [nullable] and
    [autoincrement] are [None] when the keyword is left out. *)
Record Column : Set := {
  name : option string;
  type_ : sqltype;
  foreign_key : option string;
  primary_key : bool;
  nullable : option bool;
  unique : bool;
  autoincrement : option bool
}.

Definition column (ty : sqltype) : Column :=
  {| name := None; type_ := ty; foreign_key := None; primary_key := false;
     nullable := None; unique := false; autoincrement := None |}.

Definition named (n : string) (c : Column) : Column :=
  {| name := Some n; type_ := type_ c; foreign_key := foreign_key c;
     primary_key := primary_key c; nullable := nullable c; unique := unique c;
     autoincrement := autoincrement c |}.

Definition ForeignKey (ref : string) (c : Column) : Column :=
  {| name := name c; type_ := type_ c; foreign_key := Some ref;
     primary_key := primary_key c; nullable := nullable c; unique := unique c;
     autoincrement := autoincrement c |}.

Definition set_primary_key (c : Column) : Column :=
  {| name := name c; type_ := type_ c; foreign_key := foreign_key c;
     primary_key := true; nullable := nullable c; unique := unique c;
     autoincrement := autoincrement c |}.

Definition set_nullable (b : bool) (c : Column) : Column :=
  {| name := name c; type_ := type_ c; foreign_key := foreign_key c;
     primary_key := primary_key c; nullable := Some b; unique := unique c;
     autoincrement := autoincrement c |}.

Definition set_unique (c : Column) : Column :=
  {| name := name c; type_ := type_ c; foreign_key := foreign_key c;
     primary_key := primary_key c; nullable := nullable c; unique := true;
     autoincrement := autoincrement c |}.

Definition set_autoincrement (b : bool) (c : Column) : Column :=
  {| name := name c; type_ := type_ c; foreign_key := foreign_key c;
     primary_key := primary_key c; nullable := nullable c; unique := unique c;
     autoincrement := Some b |}.

(** A column is nullable unless told otherwise or part of the primary key. *)
Definition is_nullable (c : Column) : bool :=
  default (negb (primary_key c)) (nullable c).
End sa.

(** What a class body binds a name to. *)
Inductive attribute : Set :=
| attr_str (s : string)
| attr_column (c : sa.Column)
| attr_tuple (cs : list sa.ForeignKeyConstraint)
| attr_other.

Definition class_body : Set := list (string * attribute).

(** Convenience functions for common foreign keys *)

Definition pokemon_form_key : sa.ForeignKeyConstraint :=
  {| sa.columns := ["pokemon_id"; "form_id"];
     sa.refcolumns := ["pokemon_forms.pokemon_id"; "pokemon_forms.form_id"] |}.

Definition generation_pokemon_key : sa.ForeignKeyConstraint :=
  {| sa.columns := ["generation_id"; "pokemon_id"];
     sa.refcolumns := ["generation_pokemon.generation_id";
                       "generation_pokemon.pokemon_id"] |}.

Definition generation_pokemon_form_key : sa.ForeignKeyConstraint :=
  {| sa.columns := ["generation_id"; "pokemon_id"; "form_id"];
     sa.refcolumns := ["generation_pokemon_forms.generation_id";
                       "generation_pokemon_forms.pokemon_id";
                       "generation_pokemon_forms.form_id"] |}.

(** The class bodies, attribute by attribute. *)
Module Class.
Import sa.

Definition Pokemon : class_body :=
  [ ("__tablename__", attr_str "pokemon");
    ("_by_generation_class_name", attr_str "GenerationPokemon");
    ("_by_language_class_name", attr_str "PokemonName");
    ("id", attr_column (set_primary_key (column Integer)));
    ("identifier", attr_column (set_nullable false (set_unique (column Unicode))));
    ("preevolution_id", attr_column (ForeignKey "pokemon.id" (column Integer)));
    ("order", attr_column (set_nullable false (set_unique (column Integer)))) ].

Definition PokemonName : class_body :=
  [ ("__tablename__", attr_str "pokemon_names");
    ("language_id",
     attr_column (set_primary_key (ForeignKey "languages.id" (column Integer))));
    ("pokemon_id",
     attr_column (set_primary_key (ForeignKey "pokemon.id" (column Integer))));
    ("name", attr_column (set_nullable false (column Text))) ].

Definition PokemonForm : class_body :=
  [ ("__tablename__", attr_str "pokemon_forms");
    ("_by_generation_class_name", attr_str "GenerationPokemonForm");
    ("_by_language_class_name", attr_str "PokemonFormName");
    ("pokemon_id",
     attr_column (set_primary_key (ForeignKey "pokemon.id" (column Integer))));
    ("form_id", attr_column (set_primary_key (column Integer)));
    ("identifier", attr_column (set_nullable false (set_unique (column Unicode))));
    ("is_default", attr_column (set_nullable false (column Boolean)));
    ("order", attr_column (set_nullable false (set_unique (column Integer))));
    ("full_name", attr_other);
    ("_current_gpf", attr_other);
    ("types", attr_other);
    ("all_types", attr_other);
    ("_current_generation_id", attr_other) ].

Definition PokemonFormName : class_body :=
  [ ("__tablename__", attr_str "pokemon_form_names");
    ("__table_args__", attr_tuple [pokemon_form_key]);
    ("language_id",
     attr_column (set_primary_key (ForeignKey "languages.id" (column Integer))));
    ("pokemon_id", attr_column (set_primary_key (column Integer)));
    ("form_id", attr_column (set_primary_key (column Integer)));
    ("name", attr_column (set_nullable false (named "form_name" (column Text))));
    ("full_name", attr_column (set_nullable false (column Text))) ].

Definition GenerationPokemon : class_body :=
  [ ("__tablename__", attr_str "generation_pokemon");
    ("generation_id",
     attr_column (set_primary_key (ForeignKey "generations.id" (column Integer))));
    ("pokemon_id",
     attr_column (set_primary_key (ForeignKey "pokemon.id" (column Integer)))) ].

Definition GenerationPokemonForm : class_body :=
  [ ("__tablename__", attr_str "generation_pokemon_forms");
    ("__table_args__", attr_tuple [pokemon_form_key; generation_pokemon_key]);
    ("generation_id",
     attr_column (set_primary_key (ForeignKey "generations.id" (column Integer))));
    ("pokemon_id",
     attr_column (set_autoincrement false (set_primary_key (column Integer))));
    ("form_id",
     attr_column (set_autoincrement false (set_primary_key (column Integer))));
    ("types", attr_other) ].

Definition GamePokemonForm : class_body :=
  [ ("__tablename__", attr_str "game_pokemon_forms");
    ("__tableargs__",
     attr_tuple [ generation_pokemon_form_key;
                  {| columns := ["game_id"; "generation_id"];
                     refcolumns := ["games.id"; "games.generation_id"] |} ]);
    ("game_id",
     attr_column (set_primary_key (ForeignKey "games.id" (column Integer))));
    ("pokemon_id",
     attr_column (set_autoincrement false (set_primary_key (column Integer))));
    ("form_id",
     attr_column (set_autoincrement false (set_primary_key (column Integer))));
    ("generation_id",
     attr_column (set_nullable false (ForeignKey "generations.id" (column Integer))));
    ("ingame_internal_id", attr_column (set_nullable true (column Integer))) ].
End Class.

(** ** From a class body to its table *)

Record Table : Set := {
  tablename : string;
  table_columns : list (string * sa.Column);
  table_constraints : list sa.ForeignKeyConstraint
}.

Fixpoint getattr (body : class_body) (k : string) : option attribute :=
  match body with
  | [] => None
  | (k', a) :: body' => if String.eqb k' k then Some a else getattr body' k
  end.

(** Every [Column] in the body becomes a column of the table, under its
    explicit name or else the name it is bound to. *)
Definition declared_columns (body : class_body) : list (string * sa.Column) :=
  omap (fun ka =>
          match ka.2 with
          | attr_column c => Some (default ka.1 (sa.name c), c)
          | _ => None
          end) body.

(** Table-wide constraints are read from the attribute [__table_args__],
    and from no other. *)
Definition declared_constraints (body : class_body) : list sa.ForeignKeyConstraint :=
  match getattr body "__table_args__" with
  | Some (attr_tuple cs) => cs
  | _ => []
  end.

Definition __table__ (body : class_body) : option Table :=
  match getattr body "__tablename__" with
  | Some (attr_str n) =>
      Some {| tablename := n;
              table_columns := declared_columns body;
              table_constraints := declared_constraints body |}
  | _ => None
  end.

(** A column-level [sa.ForeignKey] is a constraint over that one column. *)
Definition foreign_keys (t : Table) : list sa.ForeignKeyConstraint :=
  omap (fun nc =>
          match sa.foreign_key nc.2 with
          | Some ref => Some {| sa.columns := [nc.1]; sa.refcolumns := [ref] |}
          | None => None
          end) (table_columns t)
  ++ table_constraints t.

(** ** Stored rows and INSERT *)

Inductive value : Set :=
| NULL
| Int (z : Z)
| Str (s : string)
| Bool (b : bool).

#[export] Instance value_eq_dec : EqDecision value.
Proof. solve_decision. Defined.

Definition is_null (v : value) : bool :=
  match v with
  | NULL => true
  | _ => false
  end.

Definition get (r : gmap string value) (column : string) : value :=
  default NULL (r !! column).

Definition rows_of (st : gmap string (list (gmap string value))) (table : string)
  : list (gmap string value) :=
  default [] (st !! table).

Arguments get : simpl never.
Arguments rows_of : simpl never.

(** 'table.column', cut at the first dot. *)
Fixpoint split_ref (ref : string) : string * string :=
  match ref with
  | EmptyString => (EmptyString, EmptyString)
  | String c ref' =>
      if Ascii.eqb c "."%char then (EmptyString, ref')
      else (String c (split_ref ref').1, (split_ref ref').2)
  end.

(** A foreign key with a NULL component is not checked; otherwise some row
    of the referenced table must carry the same values. *)
Definition foreign_key_holds (st : gmap string (list (gmap string value)))
    (fk : sa.ForeignKeyConstraint) (r : gmap string value) : bool :=
  let vals := get r <$> sa.columns fk in
  if existsb is_null vals then true
  else
    match split_ref <$> sa.refcolumns fk with
    | [] => true
    | (t, c) :: refs' =>
        existsb (fun r' => bool_decide (get r' <$> c :: refs'.*2 = vals)) (rows_of st t)
    end.

Definition not_null_holds (t : Table) (r : gmap string value) : bool :=
  forallb (fun nc => sa.is_nullable nc.2 || negb (is_null (get r nc.1)))
          (table_columns t).

Definition primary_key_of (t : Table) (r : gmap string value) : list value :=
  get r <$> (filter (fun nc => sa.primary_key nc.2 = true) (table_columns t)).*1.

Definition primary_key_holds (st : gmap string (list (gmap string value)))
    (t : Table) (r : gmap string value) : bool :=
  negb (existsb (fun r' => bool_decide (primary_key_of t r' = primary_key_of t r))
                (rows_of st (tablename t))).

Definition unique_holds (st : gmap string (list (gmap string value)))
    (t : Table) (r : gmap string value) : bool :=
  forallb (fun nc =>
             negb (sa.unique nc.2)
             || is_null (get r nc.1)
             || negb (existsb (fun r' => bool_decide (get r' nc.1 = get r nc.1))
                              (rows_of st (tablename t))))
          (table_columns t).

(** A Boolean column carries CHECK (column IN (0, 1)); True and False are
    stored as 1 and 0, and NULL passes the check. *)
Definition is_boolean (v : value) : bool :=
  match v with
  | NULL => true
  | Bool _ => true
  | Int z => bool_decide (z = 0 \/ z = 1)
  | Str _ => false
  end.

Definition check_holds (t : Table) (r : gmap string value) : bool :=
  forallb (fun nc =>
             match sa.type_ nc.2 with
             | sa.Boolean => is_boolean (get r nc.1)
             | _ => true
             end)
          (table_columns t).

(** The column the engine numbers by itself: a primary key of one Integer
    column, when [autoincrement] is asked for, or is left out on a column
    without a foreign key. *)
Definition autoincrement_column (t : Table) : option string :=
  match filter (fun nc => sa.primary_key nc.2 = true) (table_columns t) with
  | [(n, c)] =>
      match sa.type_ c, sa.autoincrement c, sa.foreign_key c with
      | sa.Integer, Some true, _ => Some n
      | sa.Integer, None, None => Some n
      | _, _, _ => None
      end
  | _ => None
  end.

(** One more than the largest key in use, and 1 for an empty table.  (Past
    the largest 64-bit key the engine looks for a free one at random; that
    is not followed here.) *)
Definition next_rowid (rows : list (gmap string value)) (column : string) : Z :=
  match omap (fun p => match get p column with Int z => Some z | _ => None end) rows with
  | [] => 1
  | z :: zs => foldl Z.max z zs + 1
  end.

(** A row that leaves the self-numbered key NULL gets the next key. *)
Definition with_generated_key (st : gmap string (list (gmap string value)))
    (t : Table) (r : gmap string value) : gmap string value :=
  match autoincrement_column t with
  | Some n =>
      if is_null (get r n)
      then <[n := Int (next_rowid (rows_of st (tablename t)) n)]> r
      else r
  | None => r
  end.

(** INSERT, with the values as the driver has bound them.  The key is
    generated first where the engine does so.  The row is appended when
    every declared constraint holds, and the statement fails otherwise; the
    foreign keys are checked with the new row in place, so a row may refer
    to itself. *)
Definition insert (st : gmap string (list (gmap string value)))
    (t : Table) (r : gmap string value)
  : outcome (gmap string (list (gmap string value))) :=
  let r := with_generated_key st t r in
  let st' := <[tablename t := rows_of st (tablename t) ++ [r]]> st in
  if not_null_holds t r
     && primary_key_holds st t r
     && unique_holds st t r
     && forallb (fun fk => foreign_key_holds st' fk r) (foreign_keys t)
     && check_holds t r
  then Returns st'
  else Raises IntegrityError.

Definition insert_into (st : gmap string (list (gmap string value)))
    (body : class_body) (r : gmap string value)
  : outcome (gmap string (list (gmap string value))) :=
  match __table__ body with
  | Some t => insert st t r
  | None => Raises IntegrityError
  end.

(** Binding the parameters of the statement: the driver has 64 bits for the
    integer of an Integer column and raises OverflowError beyond them. *)
Definition in_int64 (z : Z) : bool :=
  (- 2 ^ 63 <=? z) && (z <? 2 ^ 63).

Definition bind (t : Table) (r : gmap string value) : outcome (gmap string value) :=
  if forallb (fun nc =>
                match sa.type_ nc.2, get r nc.1 with
                | sa.Integer, Int z => in_int64 z
                | _, _ => true
                end)
             (table_columns t)
  then Returns r
  else Raises OverflowError.

(** Adding a row through a mapped class: bind, then INSERT. *)
Definition add (st : gmap string (list (gmap string value)))
    (body : class_body) (r : gmap string value)
  : outcome (gmap string (list (gmap string value))) :=
  match __table__ body with
  | Some t =>
      match bind t r with
      | Returns r' => insert st t r'
      | Raises e => Raises e
      end
  | None => Raises IntegrityError
  end.

(** ** A stored fixture: two generations, one game of the first *)

Definition fixture_store : gmap string (list (gmap string value)) :=
  {[ "generations" := [ {[ "id" := Int 1 ]}; {[ "id" := Int 2 ]} ];
     "games" := [ {[ "id" := Int 1; "generation_id" := Int 1 ]} ];
     "pokemon" := [ {[ "id" := Int 35; "identifier" := Str "clefairy";
                       "order" := Int 41 ]} ];
     "pokemon_forms" := [ {[ "pokemon_id" := Int 35; "form_id" := Int 0;
                             "identifier" := Str "clefairy";
                             "is_default" := Bool true; "order" := Int 41 ]} ];
     "generation_pokemon" := [ {[ "generation_id" := Int 1; "pokemon_id" := Int 35 ]} ];
     "generation_pokemon_forms" :=
       [ {[ "generation_id" := Int 1; "pokemon_id" := Int 35; "form_id" := Int 0 ]} ] ]}.

(** A row for a game of generation 1 that claims generation 2. *)
Definition wrong_generation_row : gmap string value :=
  {[ "game_id" := Int 1; "pokemon_id" := Int 35; "form_id" := Int 0;
     "generation_id" := Int 2 ]}.

(** A row for a form that is in no table. *)
Definition orphan_game_row : gmap string value :=
  {[ "game_id" := Int 1; "pokemon_id" := Int 999; "form_id" := Int 7;
     "generation_id" := Int 1 ]}.

Definition orphan_generation_row : gmap string value :=
  {[ "generation_id" := Int 1; "pokemon_id" := Int 999; "form_id" := Int 7 ]}.

Definition is_returned {A : Type} (o : outcome A) : bool :=
  match o with
  | Returns _ => true
  | Raises _ => false
  end.

(** A form that has a row in [pokemon_forms] and none in
    [generation_pokemon_forms]. *)
Definition unreleased_form : PokemonForm.t :=
  {| PokemonForm.pokemon_id := 999; PokemonForm.form_id := 0;
     PokemonForm.identifier := "unreleased"; PokemonForm.is_default := true;
     PokemonForm.order := 1000 |}.

Definition unreleased_db : Database :=
  {| pokemon_forms := [fixture_form; unreleased_form];
     generation_pokemon_forms := fixture_rows [1] [1] [18] |}.

(** ** Loading rows *)

(** The stored row of a mapped form. *)
Definition PokemonForm_row (f : PokemonForm.t) : gmap string value :=
  {[ "pokemon_id" := Int (PokemonForm.pokemon_id f);
     "form_id" := Int (PokemonForm.form_id f);
     "identifier" := Str (PokemonForm.identifier f);
     "is_default" := Bool (PokemonForm.is_default f);
     "order" := Int (PokemonForm.order f) ]}.

(** Insert the rows one after the other; the first failure ends the load. *)
Fixpoint load (st : gmap string (list (gmap string value))) (body : class_body)
    (rows : list (gmap string value))
  : outcome (gmap string (list (gmap string value))) :=
  match rows with
  | [] => Returns st
  | r :: rows' =>
      match insert_into st body r with
      | Returns st' => load st' body rows'
      | Raises e => Raises e
      end
  end.

(** Two forms of one species, both marked as the default. *)
Definition second_default_form : PokemonForm.t :=
  {| PokemonForm.pokemon_id := 35; PokemonForm.form_id := 1;
     PokemonForm.identifier := "clefairy-other"; PokemonForm.is_default := true;
     PokemonForm.order := 42 |}.



(** Names of the fixture species in two languages. *)
Definition fixture_pokemon : Pokemon.t :=
  {| Pokemon.id := 35; Pokemon.identifier := "clefairy";
     Pokemon.preevolution_id := Some 173; Pokemon.order := 41 |}.

Definition name_ja : PokemonName.t :=
  {| PokemonName.language_id := 1; PokemonName.pokemon_id := 35;
     PokemonName.name := "Pippi" |}.

Definition name_en : PokemonName.t :=
  {| PokemonName.language_id := 9; PokemonName.pokemon_id := 35;
     PokemonName.name := "Clefairy" |}.

Definition fixture_names : NameTables :=
  {| pokemon_names := [name_ja; name_en]; pokemon_form_names := [] |}.

(** ** The declared constraints, column by column *)

(** The columns that must not be NULL, the columns of the primary key and
    the columns declared unique, in the order of the class body. *)
Definition required_columns (t : Table) : list string :=
  (filter (fun nc => sa.is_nullable nc.2 = false) (table_columns t)).*1.

Definition primary_key_columns (t : Table) : list string :=
  (filter (fun nc => sa.primary_key nc.2 = true) (table_columns t)).*1.

Definition unique_columns (t : Table) : list string :=
  (filter (fun nc => sa.unique nc.2 = true) (table_columns t)).*1.

Definition boolean_columns (t : Table) : list string :=
  (filter (fun nc => sa.type_ nc.2 = sa.Boolean) (table_columns t)).*1.

Definition integer_columns (t : Table) : list string :=
  (filter (fun nc => sa.type_ nc.2 = sa.Integer) (table_columns t)).*1.

(** The stored row of a mapped [GenerationPokemonForm]; its [types] live in
    [pokemon_types]. *)
Definition GenerationPokemonForm_row (g : GenerationPokemonForm.t)
  : gmap string value :=
  {[ "generation_id" := Int (GenerationPokemonForm.generation_id g);
     "pokemon_id" := Int (GenerationPokemonForm.pokemon_id g);
     "form_id" := Int (GenerationPokemonForm.form_id g) ]}.

(** The fixture store before any row of [generation_pokemon_forms] is
    loaded, with the species present in generations 1 and 2. *)
Definition store_before_forms_by_generation : gmap string (list (gmap string value)) :=
  <["generation_pokemon" := [ {[ "generation_id" := Int 1; "pokemon_id" := Int 35 ]};
                              {[ "generation_id" := Int 2; "pokemon_id" := Int 35 ]} ]]>
    (<["generation_pokemon_forms" := []]> fixture_store).



(** Rows of [pokemon]: one that names itself as its pre-evolution, one
    without an id, and one whose order does not fit 64 bits. *)
Definition self_evolving_row : gmap string value :=
  {[ "id" := Int 5; "identifier" := Str "charmeleon"; "preevolution_id" := Int 5;
     "order" := Int 5 ]}.

Definition row_without_id : gmap string value :=
  {[ "identifier" := Str "clefable"; "preevolution_id" := Int 35; "order" := Int 42 ]}.

Definition row_beyond_int64 : gmap string value :=
  {[ "id" := Int 36; "identifier" := Str "clefable"; "order" := Int (2 ^ 63) ]}.

(** A row of [pokemon_forms] whose default flag is 2. *)
Definition row_with_flag_2 : gmap string value :=
  {[ "pokemon_id" := Int 35; "form_id" := Int 1; "identifier" := Str "clefairy-other";
     "is_default" := Int 2; "order" := Int 42 ]}.

(** * Properties *)

(** ** Python's max and SQL's MAX *)

Section maxima.
Implicit Types (l : list Z) (m x : Z).

Lemma foldl_Zmax_spec x l :
  (foldl Z.max x l = x \/ foldl Z.max x l ∈ l)
  /\ x <= foldl Z.max x l
  /\ (forall y, y ∈ l -> y <= foldl Z.max x l).
Proof.
  revert x. induction l as [|a l IH]; intros x; simpl.
  - split; [by left|]. split; [lia|]. intros y Hy. by apply elem_of_nil in Hy.
  - destruct (IH (Z.max x a)) as (Hin & Hle & Hub).
    split; [|split].
    + destruct Hin as [Heq|Hin].
      * rewrite Heq. destruct (Z.max_spec x a) as [[_ ->]|[_ ->]].
        -- right. apply elem_of_cons. by left.
        -- by left.
      * right. apply elem_of_cons. by right.
    + lia.
    + intros y Hy. apply elem_of_cons in Hy as [->|Hy]; [lia|by apply Hub].
Qed.

Lemma max_Returns l m :
  max l = Returns m <-> m ∈ l /\ (forall y, y ∈ l -> y <= m).
Proof.
  destruct l as [|x l]; simpl.
  - split; [done|]. intros [Hin _]. by apply elem_of_nil in Hin.
  - destruct (foldl_Zmax_spec x l) as (Hin & Hle & Hub).
    assert (Hmem : foldl Z.max x l ∈ x :: l).
    { apply elem_of_cons. destruct Hin as [->|Hin]; [by left|by right]. }
    assert (Hall : forall y, y ∈ x :: l -> y <= foldl Z.max x l).
    { intros y Hy. apply elem_of_cons in Hy as [->|Hy]; [done|by apply Hub]. }
    split.
    + intros [= <-]. done.
    + intros [Hm Hmub]. f_equal.
      specialize (Hmub _ Hmem). specialize (Hall _ Hm). lia.
Qed.

Lemma max_Raises l e : max l = Raises e <-> l = [] /\ e = ValueError.
Proof.
  destruct l; simpl; split; try done.
  - by intros [= <-].
  - by intros [_ ->].
  - by intros [? _].
Qed.

(** [max] sees its argument as a set. *)
Lemma max_ext l1 l2 : (forall x, x ∈ l1 <-> x ∈ l2) -> max l1 = max l2.
Proof.
  intros Hext. destruct (max l1) as [m|e] eqn:H1.
  - symmetry. apply max_Returns. apply max_Returns in H1 as [Hin Hub].
    split; [by apply Hext|]. intros y Hy. apply Hub. by apply Hext.
  - apply max_Raises in H1 as [-> ->].
    destruct l2 as [|y l2]; [done|].
    exfalso. eapply elem_of_nil. apply Hext. apply elem_of_cons. by left.
Qed.

Lemma sql_max_from x l :
  foldl (fun acc v =>
           match acc, v with
           | Some a, Some b => Some (Z.max a b)
           | None, _ => v
           | _, None => acc
           end) (Some x) (Some <$> l) = Some (foldl Z.max x l).
Proof. revert x. induction l as [|a l IH]; intros x; simpl; [done|apply IH]. Qed.

(** Over non-NULL inputs MAX is [max], with NULL where [max] raises. *)
Lemma sql_max_max l :
  sql_max (Some <$> l) = match max l with Returns m => Some m | Raises _ => None end.
Proof. destruct l as [|x l]; [done|]. apply sql_max_from. Qed.
End maxima.

(** ** Dicts *)

Section dicts.
Context {V : Type}.
Implicit Types (items : list (Z * V)) (d : gmap Z V) (k : Z) (v : V).

Lemma elem_of_keys d k : k ∈ keys d <-> is_Some (d !! k).
Proof.
  unfold keys. rewrite list_elem_of_fmap. split.
  - intros ([k' v] & -> & Hin). apply elem_of_map_to_list in Hin. by exists v.
  - intros [v Hv]. exists (k, v). split; [done|]. by apply elem_of_map_to_list.
Qed.

Lemma dict_of_snoc items k v :
  dict_of (items ++ [(k, v)]) = <[k := v]> (dict_of items).
Proof. unfold dict_of. by rewrite foldl_snoc. Qed.

Lemma dict_of_is_Some items k : is_Some (dict_of items !! k) <-> k ∈ items.*1.
Proof.
  induction items as [|[k' v'] items IH] using rev_ind.
  - cbn. rewrite lookup_empty. split; [by intros [? ?]|].
    intros H. by apply elem_of_nil in H.
  - rewrite dict_of_snoc, fmap_app, elem_of_app. cbn.
    destruct (decide (k' = k)) as [->|Hne].
    + rewrite lookup_insert_eq. split; [|by eauto].
      intros _. right. apply elem_of_cons. by left.
    + rewrite lookup_insert_ne by done. rewrite IH. split; [by left|].
      intros [H|H]; [done|].
      apply elem_of_cons in H as [->|H]; [done|by apply elem_of_nil in H].
Qed.

Lemma dict_of_lookup items k v :
  NoDup items.*1 -> dict_of items !! k = Some v <-> (k, v) ∈ items.
Proof.
  induction items as [|[k' v'] items IH] using rev_ind; intros Hnd.
  - cbn. rewrite lookup_empty. split; [done|].
    intros H. by apply elem_of_nil in H.
  - rewrite fmap_app in Hnd. apply NoDup_app in Hnd as (Hnd & Hfresh & _).
    rewrite dict_of_snoc, elem_of_app. cbn in Hfresh.
    destruct (decide (k' = k)) as [->|Hne].
    + rewrite lookup_insert_eq. split.
      * intros [= ->]. right. apply elem_of_cons. by left.
      * intros [H|H].
        -- exfalso. apply (Hfresh k).
           ++ apply list_elem_of_fmap. by exists (k, v).
           ++ apply elem_of_cons. by left.
        -- apply elem_of_cons in H as [[= ->]|H]; [done|by apply elem_of_nil in H].
    + rewrite lookup_insert_ne by done. rewrite (IH Hnd). split; [by left|].
      intros [H|H]; [done|].
      apply elem_of_cons in H as [[= -> ->]|H]; [done|by apply elem_of_nil in H].
Qed.
End dicts.

(** ** The per-generation collection of a form *)

Section by_generation.
Implicit Types (db : Database) (self : PokemonForm.t)
  (r : GenerationPokemonForm.t) (g : Z) (s : Session.t).

Lemma belongs_to_spec self r :
  belongs_to self r = true
  <-> GenerationPokemonForm.pokemon_id r = PokemonForm.pokemon_id self
      /\ GenerationPokemonForm.form_id r = PokemonForm.form_id self.
Proof.
  unfold belongs_to. rewrite andb_true_iff, !bool_decide_eq_true. done.
Qed.

Lemma is_true_sql_eq (a b : Z) : is_true (sql_eq (Some a) (Some b)) = true <-> a = b.
Proof. cbn. destruct (decide (a = b)) as [->|Hne].
  - by rewrite bool_decide_eq_true_2.
  - by rewrite bool_decide_eq_false_2.
Qed.

Lemma fmap_Some_compose {A : Type} (f : A -> Z) (l : list A) :
  (fun a => Some (f a)) <$> l = Some <$> (f <$> l).
Proof. by rewrite <- list_fmap_compose. Qed.

(** The two WHERE clauses of the subquery select the rows of the form. *)
Lemma subquery_rows db self :
  filter (fun r =>
            is_true (sql_eq (Some (GenerationPokemonForm.form_id r))
                            (Some (PokemonForm.form_id self))) = true)
    (filter (fun r =>
               is_true (sql_eq (Some (GenerationPokemonForm.pokemon_id r))
                               (Some (PokemonForm.pokemon_id self))) = true)
       (generation_pokemon_forms db))
  = filter (fun r => belongs_to self r = true) (generation_pokemon_forms db).
Proof.
  rewrite list_filter_filter. apply list_filter_iff. intros r.
  rewrite belongs_to_spec, !is_true_sql_eq. tauto.
Qed.

Lemma by_generation_keys db self :
  ((fun r => (GenerationPokemonForm.generation_id r, r))
     <$> filter (fun r => belongs_to self r = true) (generation_pokemon_forms db)).*1
  = GenerationPokemonForm.generation_id
      <$> filter (fun r => belongs_to self r = true) (generation_pokemon_forms db).
Proof. rewrite <- list_fmap_compose. done. Qed.

Lemma by_generation_is_Some db self g :
  is_Some (_by_generation db self !! g)
  <-> exists r, r ∈ generation_pokemon_forms db
                /\ belongs_to self r = true
                /\ GenerationPokemonForm.generation_id r = g.
Proof.
  unfold _by_generation.
  rewrite dict_of_is_Some, by_generation_keys, list_elem_of_fmap.
  split.
  - intros (r & -> & Hr). apply list_elem_of_filter in Hr as [Hb Hin]. eauto.
  - intros (r & Hin & Hb & <-). exists r. split; [done|].
    by apply list_elem_of_filter.
Qed.

(** Within one form the generation id alone is a key. *)
Lemma generation_ids_NoDup self (rows : list GenerationPokemonForm.t) :
  NoDup (GenerationPokemonForm.primary_key <$> rows) ->
  NoDup (GenerationPokemonForm.generation_id
           <$> filter (fun r => belongs_to self r = true) rows).
Proof.
  induction rows as [|a rows IH]; intros Hnd; [constructor|].
  rewrite fmap_cons in Hnd. apply NoDup_cons in Hnd as [Hfresh Hnd].
  rewrite filter_cons. destruct (decide (belongs_to self a = true)) as [Ha|Ha];
    [|by apply IH].
  rewrite fmap_cons. apply NoDup_cons. split; [|by apply IH].
  intros Hin. apply Hfresh.
  apply list_elem_of_fmap in Hin as (r & Hg & Hr).
  apply list_elem_of_filter in Hr as [Hb Hr].
  apply list_elem_of_fmap. exists r. split; [|done].
  apply belongs_to_spec in Ha as [Ha1 Ha2]. apply belongs_to_spec in Hb as [Hb1 Hb2].
  unfold GenerationPokemonForm.primary_key. congruence.
Qed.

Lemma by_generation_lookup db self g r :
  primary_key_unique db ->
  _by_generation db self !! g = Some r
  <-> r ∈ generation_pokemon_forms db
      /\ belongs_to self r = true
      /\ GenerationPokemonForm.generation_id r = g.
Proof.
  intros Hpk. unfold _by_generation.
  rewrite dict_of_lookup.
  2: { rewrite by_generation_keys. by apply generation_ids_NoDup. }
  rewrite list_elem_of_fmap. split.
  - intros (r' & [= -> ->] & Hr). apply list_elem_of_filter in Hr as [Hb Hin]. done.
  - intros (Hin & Hb & <-). exists r. split; [done|]. by apply list_elem_of_filter.
Qed.

Lemma all_types_lookup db self g :
  all_types db self !! g = GenerationPokemonForm.types <$> _by_generation db self !! g.
Proof. unfold all_types. apply lookup_fmap. Qed.

Lemma all_types_keys db self g :
  g ∈ keys (all_types db self) <-> g ∈ keys (_by_generation db self).
Proof.
  rewrite !elem_of_keys, all_types_lookup. apply fmap_is_Some.
Qed.

(** ** The two forms of the hybrid property *)

Lemma latest_gen_max db self :
  latest_gen db self
  = match max (keys (_by_generation db self)) with
    | Returns m => Some m
    | Raises _ => None
    end.
Proof.
  unfold latest_gen. rewrite subquery_rows, fmap_Some_compose, sql_max_max.
  erewrite max_ext; [done|].
  intros g. rewrite elem_of_keys, by_generation_is_Some, list_elem_of_fmap.
  split.
  - intros (r & -> & Hr). apply list_elem_of_filter in Hr as [Hb Hin]. eauto.
  - intros (r & Hin & Hb & <-). exists r. split; [done|].
    by apply list_elem_of_filter.
Qed.

(** Where the instance-level property returns, the expression has the same
    value; where it raises, the expression is NULL. *)
Lemma current_generation_id_related s db self :
  _current_generation_id_expression (Session.generation_id s) db self
  = match _current_generation_id s db self with
    | Returns g => Some g
    | Raises _ => None
    end.
Proof.
  unfold _current_generation_id_expression, _current_generation_id.
  destruct (Session.generation_id s) as [g|]; cbn; [done|].
  apply latest_gen_max.
Qed.

Lemma keys_nil_no_rows db self :
  keys (_by_generation db self) = []
  <-> forall r, r ∈ generation_pokemon_forms db -> belongs_to self r = false.
Proof.
  split.
  - intros Hnil r Hin. destruct (belongs_to self r) eqn:Hb; [|done].
    exfalso. eapply elem_of_nil. rewrite <- Hnil.
    apply elem_of_keys, by_generation_is_Some. eauto.
  - intros Hnone. destruct (keys (_by_generation db self)) as [|g l] eqn:Hk; [done|].
    assert (Hg : g ∈ keys (_by_generation db self)).
    { rewrite Hk. apply elem_of_cons. by left. }
    apply elem_of_keys, by_generation_is_Some in Hg as (r & Hin & Hb & _).
    rewrite (Hnone r Hin) in Hb. done.
Qed.

(** ** The relationship *)

Lemma primaryjoin_true (session_gen : option Z) db self r :
  is_true (primaryjoin session_gen db self r) = true
  <-> belongs_to self r = true
      /\ _current_generation_id_expression session_gen db self
         = Some (GenerationPokemonForm.generation_id r).
Proof.
  unfold primaryjoin. rewrite belongs_to_spec.
  destruct (_current_generation_id_expression session_gen db self) as [g|]; cbn.
  - destruct (decide (PokemonForm.pokemon_id self = GenerationPokemonForm.pokemon_id r))
      as [E1|E1];
    destruct (decide (PokemonForm.form_id self = GenerationPokemonForm.form_id r))
      as [E2|E2];
    destruct (decide (g = GenerationPokemonForm.generation_id r)) as [E3|E3];
    rewrite ?(bool_decide_eq_true_2 _ E1), ?(bool_decide_eq_false_2 _ E1),
      ?(bool_decide_eq_true_2 _ E2), ?(bool_decide_eq_false_2 _ E2),
      ?(bool_decide_eq_true_2 _ E3), ?(bool_decide_eq_false_2 _ E3); cbn;
    split; try done; try (intros [[? ?] [= ?]]; congruence).
    intros _. rewrite E1, E2, E3. done.
  - split; [|by intros [_ ?]].
    repeat (match goal with
          | |- context [@bool_decide ?P ?d] => destruct (@bool_decide P d)
          end); done.
Qed.

Lemma current_gpf_None s db self :
  (forall r, r ∈ generation_pokemon_forms db ->
             belongs_to self r = true ->
             _current_generation_id_expression (Session.generation_id s) db self
             <> Some (GenerationPokemonForm.generation_id r)) ->
  _current_gpf s db self = None.
Proof.
  intros Hno. unfold _current_gpf. apply head_None.
  destruct (filter _ _) as [|r l] eqn:Hf; [done|].
  assert (Hr : r ∈ r :: l) by (apply elem_of_cons; by left).
  rewrite <- Hf in Hr. apply list_elem_of_filter in Hr as [Hj Hin].
  apply primaryjoin_true in Hj as [Hb He]. by destruct (Hno r Hin Hb).
Qed.

Lemma types_absent_gpf s db self :
  _current_gpf s db self = None -> types s db self = Returns None.
Proof. intros H. unfold types. by rewrite H. Qed.

Lemma filter_by_key {A K : Type} (key : A -> K) (P : A -> Prop)
    `{!forall x, Decision (P x)} (l : list A) (a : A) :
  NoDup (key <$> l) -> a ∈ l -> (forall x, x ∈ l -> P x <-> key x = key a) ->
  filter P l = [a].
Proof.
  induction l as [|x l IH]; intros Hnd Hin HP; [by apply elem_of_nil in Hin|].
  rewrite fmap_cons in Hnd. apply NoDup_cons in Hnd as [Hfresh Hnd].
  assert (Hrest : forall y, y ∈ l -> key y = key x -> False).
  { intros y Hy Hk. apply Hfresh. rewrite <- Hk. by apply list_elem_of_fmap_2. }
  apply elem_of_cons in Hin as [->|Hin].
  - rewrite filter_cons_True by (apply HP; [apply elem_of_cons; by left|done]).
    f_equal. destruct (filter P l) as [|y l'] eqn:Hf; [done|].
    assert (Hy : y ∈ y :: l') by (apply elem_of_cons; by left).
    rewrite <- Hf in Hy. apply list_elem_of_filter in Hy as [HPy Hy].
    destruct (Hrest y Hy). apply HP; [apply elem_of_cons; by right|done].
  - rewrite filter_cons_False.
    + apply IH; [done|done|]. intros y Hy. apply HP. apply elem_of_cons. by right.
    + intros HPx. apply (Hrest a Hin). symmetry. apply HP; [|done].
      apply elem_of_cons. by left.
Qed.

Lemma current_gpf_Some s db self r :
  primary_key_unique db ->
  r ∈ generation_pokemon_forms db ->
  belongs_to self r = true ->
  _current_generation_id_expression (Session.generation_id s) db self
  = Some (GenerationPokemonForm.generation_id r) ->
  _current_gpf s db self = Some r.
Proof.
  intros Hpk Hin Hb He. unfold _current_gpf.
  rewrite (filter_by_key GenerationPokemonForm.primary_key _ _ r); [done|done|done|].
  intros x Hx. rewrite primaryjoin_true, He.
  apply belongs_to_spec in Hb as [Hb1 Hb2]. rewrite belongs_to_spec.
  unfold GenerationPokemonForm.primary_key. split.
  - intros [[H1 H2] [= H3]]. congruence.
  - intros [= H1 H2 H3]. rewrite H1, H2, H3. done.
Qed.
End by_generation.

(** ** The accessors *)

Lemma fixture_primary_key_unique T1 T3 T5 : primary_key_unique (fixture_db T1 T3 T5).
Proof.
  unfold primary_key_unique.
  apply (bool_decide_unpack _ (dec := NoDup_dec _)). vm_compute. exact I.
Qed.

(** On the fixture form the accessors give T5 without a session generation,
    T3 in generation 3, nothing in generation 2, and the whole history. *)
Lemma fixture_accessors T1 T3 T5 :
  types no_generation (fixture_db T1 T3 T5) fixture_form = Returns (Some T5)
  /\ types (in_generation 3) (fixture_db T1 T3 T5) fixture_form = Returns (Some T3)
  /\ types (in_generation 2) (fixture_db T1 T3 T5) fixture_form = Returns None
  /\ all_types (fixture_db T1 T3 T5) fixture_form = {[ 1 := T1; 3 := T3; 5 := T5 ]}.
Proof. repeat split; vm_compute; reflexivity. Qed.

(** C1. [types] reads the row of the current generation: with a generation
    set on the session, the row of the form in that generation; with none
    set, the row of the form whose generation id is the greatest.  In both
    cases it returns that row's ordered type list. *)
Theorem types_reads_current_generation s db self r :
  primary_key_unique db ->
  r ∈ generation_pokemon_forms db ->
  GenerationPokemonForm.pokemon_id r = PokemonForm.pokemon_id self ->
  GenerationPokemonForm.form_id r = PokemonForm.form_id self ->
  (Session.generation_id s = Some (GenerationPokemonForm.generation_id r) ->
   types s db self = Returns (Some (GenerationPokemonForm.types r)))
  /\ (Session.generation_id s = None ->
      (forall r', r' ∈ generation_pokemon_forms db ->
                  GenerationPokemonForm.pokemon_id r' = PokemonForm.pokemon_id self ->
                  GenerationPokemonForm.form_id r' = PokemonForm.form_id self ->
                  GenerationPokemonForm.generation_id r'
                  <= GenerationPokemonForm.generation_id r) ->
      types s db self = Returns (Some (GenerationPokemonForm.types r))).
Proof.
  intros Hpk Hin Hp Hf.
  assert (Hb : belongs_to self r = true) by (by apply belongs_to_spec).
  split.
  - intros Hs. unfold types.
    rewrite (current_gpf_Some s db self r); [done|done|done|done|].
    unfold _current_generation_id_expression. by rewrite Hs.
  - intros Hs Hmax. unfold types.
    rewrite (current_gpf_Some s db self r); [done|done|done|done|].
    rewrite current_generation_id_related. unfold _current_generation_id. rewrite Hs.
    cbn. replace (max (keys (_by_generation db self)))
      with (Returns (A := Z) (GenerationPokemonForm.generation_id r)); [done|].
    symmetry. apply max_Returns. split.
    + apply elem_of_keys, by_generation_is_Some. eauto.
    + intros g Hg. apply elem_of_keys, by_generation_is_Some in Hg as (r' & Hr' & Hb' & <-).
      apply belongs_to_spec in Hb' as [? ?]. by apply Hmax.
Qed.

Lemma types_reads_current_generation_witness :
  types (in_generation 3) (fixture_db [1] [2] [18]) fixture_form = Returns (Some [2])
  /\ types no_generation (fixture_db [1] [2] [18]) fixture_form = Returns (Some [18]).
Proof.
  split.
  - refine (proj1 (types_reads_current_generation (in_generation 3)
                     (fixture_db [1] [2] [18]) fixture_form (fixture_row 3 [2])
                     _ _ _ _) _).
    + apply fixture_primary_key_unique.
    + apply list_elem_of_In. cbn. tauto.
    + reflexivity.
    + reflexivity.
    + reflexivity.
  - refine (proj2 (types_reads_current_generation no_generation
                     (fixture_db [1] [2] [18]) fixture_form (fixture_row 5 [18])
                     _ _ _ _) _ _).
    + apply fixture_primary_key_unique.
    + apply list_elem_of_In. cbn. tauto.
    + reflexivity.
    + reflexivity.
    + reflexivity.
    + intros r' Hr' Hp _. apply list_elem_of_In in Hr'. cbn in Hr'.
      destruct Hr' as [<-|[<-|[<-|[<-|[]]]]]; cbn in *; lia.
Defined.

(** C4. When no row of the form carries the resolved generation, whether it
    came from the session or from the fallback, [types] returns [None]; it
    does not raise. *)
Theorem types_absent_without_row s db self :
  (forall r, r ∈ generation_pokemon_forms db ->
             GenerationPokemonForm.pokemon_id r = PokemonForm.pokemon_id self ->
             GenerationPokemonForm.form_id r = PokemonForm.form_id self ->
             _current_generation_id_expression (Session.generation_id s) db self
             <> Some (GenerationPokemonForm.generation_id r)) ->
  _current_gpf s db self = None /\ types s db self = Returns None.
Proof.
  intros Hno.
  assert (Hgpf : _current_gpf s db self = None).
  { apply current_gpf_None. intros r Hin Hb. apply belongs_to_spec in Hb as [? ?].
    by apply Hno. }
  split; [done|]. unfold types. by rewrite Hgpf.
Qed.

Lemma types_absent_without_row_witness :
  types (in_generation 2) (fixture_db [1] [2] [18]) fixture_form = Returns None
  /\ types (in_generation 99) (fixture_db [1] [2] [18]) fixture_form = Returns None.
Proof.
  split.
  - apply (types_absent_without_row (in_generation 2) (fixture_db [1] [2] [18])
             fixture_form).
    intros r Hr _ _. apply list_elem_of_In in Hr. cbn in Hr.
    destruct Hr as [<-|[<-|[<-|[<-|[]]]]]; cbn; discriminate.
  - apply (types_absent_without_row (in_generation 99) (fixture_db [1] [2] [18])
             fixture_form).
    intros r Hr _ _. apply list_elem_of_In in Hr. cbn in Hr.
    destruct Hr as [<-|[<-|[<-|[<-|[]]]]]; cbn; discriminate.
Defined.

(** C10. [types] agrees with [all_types]: without a session generation, and
    for a form with at least one row, it is the entry of [all_types] under
    the greatest key; with a session generation that is a key of
    [all_types], it is the entry under that key. *)
Theorem types_agrees_with_all_types s db self :
  primary_key_unique db ->
  (Session.generation_id s = None ->
   (exists r, r ∈ generation_pokemon_forms db
              /\ GenerationPokemonForm.pokemon_id r = PokemonForm.pokemon_id self
              /\ GenerationPokemonForm.form_id r = PokemonForm.form_id self) ->
   exists g, max (keys (all_types db self)) = Returns g
             /\ is_Some (all_types db self !! g)
             /\ types s db self = Returns (all_types db self !! g))
  /\ (forall g, Session.generation_id s = Some g ->
                g ∈ keys (all_types db self) ->
                is_Some (all_types db self !! g)
                /\ types s db self = Returns (all_types db self !! g)).
Proof.
  intros Hpk. split.
  - intros Hs (r0 & Hin0 & Hp0 & Hf0).
    assert (Hb0 : belongs_to self r0 = true) by (by apply belongs_to_spec).
    destruct (max (keys (all_types db self))) as [g|e] eqn:Hmax.
    2: { apply max_Raises in Hmax as [Hnil _]. exfalso. eapply elem_of_nil.
         rewrite <- Hnil. apply all_types_keys, elem_of_keys, by_generation_is_Some.
         eauto. }
    exists g. split; [done|].
    apply max_Returns in Hmax as [Hg Hub].
    assert (Hsome : is_Some (all_types db self !! g)) by (by apply elem_of_keys).
    split; [done|].
    apply all_types_keys, elem_of_keys in Hg as [r Hr].
    rewrite all_types_lookup, Hr. cbn.
    apply (by_generation_lookup db self g r Hpk) in Hr as (Hin & Hb & Hgen).
    unfold types. rewrite (current_gpf_Some s db self r); [done|done|done|done|].
    rewrite current_generation_id_related. unfold _current_generation_id. rewrite Hs.
    cbn. replace (max (keys (_by_generation db self))) with (Returns (A := Z) g).
    + by rewrite Hgen.
    + symmetry. apply max_Returns. split.
      * apply elem_of_keys, by_generation_is_Some. eauto.
      * intros k Hk. apply Hub. by apply all_types_keys.
  - intros g Hs Hg.
    assert (Hsome : is_Some (all_types db self !! g)) by (by apply elem_of_keys).
    split; [done|].
    apply all_types_keys, elem_of_keys in Hg as [r Hr].
    rewrite all_types_lookup, Hr. cbn.
    apply (by_generation_lookup db self g r Hpk) in Hr as (Hin & Hb & Hgen).
    unfold types. rewrite (current_gpf_Some s db self r); [done|done|done|done|].
    unfold _current_generation_id_expression. rewrite Hs. cbn. by rewrite Hgen.
Qed.

Lemma types_agrees_with_all_types_witness :
  (exists g, max (keys (all_types (fixture_db [1] [2] [18]) fixture_form)) = Returns g
             /\ is_Some (all_types (fixture_db [1] [2] [18]) fixture_form !! g)
             /\ types no_generation (fixture_db [1] [2] [18]) fixture_form
                = Returns (all_types (fixture_db [1] [2] [18]) fixture_form !! g))
  /\ is_Some (all_types (fixture_db [1] [2] [18]) fixture_form !! 3)
  /\ types (in_generation 3) (fixture_db [1] [2] [18]) fixture_form
     = Returns (all_types (fixture_db [1] [2] [18]) fixture_form !! 3).
Proof.
  split.
  - refine (proj1 (types_agrees_with_all_types no_generation (fixture_db [1] [2] [18])
                     fixture_form _) _ _).
    + apply fixture_primary_key_unique.
    + reflexivity.
    + exists (fixture_row 1 [1]). split; [|split; reflexivity].
      apply list_elem_of_In. cbn. tauto.
  - refine (proj2 (types_agrees_with_all_types (in_generation 3)
                     (fixture_db [1] [2] [18]) fixture_form _) 3 _ _).
    + apply fixture_primary_key_unique.
    + reflexivity.
    + apply list_elem_of_In. vm_compute. tauto.
Defined.

(** C7. [all_types] maps every generation the form has a row in to the type
    list of that row, and to nothing else; the session generation has no
    part in it. *)
Theorem all_types_is_the_history db self :
  primary_key_unique db ->
  (forall g T,
      all_types db self !! g = Some T
      <-> exists r, r ∈ generation_pokemon_forms db
                    /\ GenerationPokemonForm.pokemon_id r = PokemonForm.pokemon_id self
                    /\ GenerationPokemonForm.form_id r = PokemonForm.form_id self
                    /\ GenerationPokemonForm.generation_id r = g
                    /\ GenerationPokemonForm.types r = T)
  /\ (forall fallback names s1 s2,
         (run fallback s1 names db (read_all_types self)).2
         = (run fallback s2 names db (read_all_types self)).2).
Proof.
  intros Hpk. split; [|done].
  intros g T. rewrite all_types_lookup. split.
  - destruct (_by_generation db self !! g) as [r|] eqn:Hr; [|done].
    intros [= <-]. apply (by_generation_lookup db self g r Hpk) in Hr as (Hin & Hb & Hg).
    apply belongs_to_spec in Hb as [? ?]. exists r. done.
  - intros (r & Hin & Hp & Hf & Hg & <-).
    assert (Hr : _by_generation db self !! g = Some r).
    { apply by_generation_lookup; [done|]. by rewrite belongs_to_spec. }
    by rewrite Hr.
Qed.

Lemma all_types_is_the_history_witness :
  all_types (fixture_db [1] [2] [18]) fixture_form = {[ 1 := [1]; 3 := [2]; 5 := [18] ]}
  /\ all_types (fixture_db [1] [2] [18]) fixture_form !! 5 = Some [18]
  /\ (run None (in_generation 3) fixture_names (fixture_db [1] [2] [18])
          (read_all_types fixture_form)).2
     = (run None no_generation fixture_names (fixture_db [1] [2] [18])
            (read_all_types fixture_form)).2.
Proof.
  split; [vm_compute; reflexivity|]. split.
  - apply (proj1 (all_types_is_the_history (fixture_db [1] [2] [18]) fixture_form
                    (fixture_primary_key_unique [1] [2] [18])) 5 [18]).
    exists (fixture_row 5 [18]). split; [|done].
    apply list_elem_of_In. cbn. tauto.
  - apply (proj2 (all_types_is_the_history (fixture_db [1] [2] [18]) fixture_form
                    (fixture_primary_key_unique [1] [2] [18]))).
Defined.

(** ** The two forms of the hybrid property, compared *)

(** With a session generation, or with a row of the form to fall back on,
    both forms give the same generation id. *)
Lemma current_generation_id_agree s db self :
  is_Some (Session.generation_id s)
  \/ (exists r, r ∈ generation_pokemon_forms db /\ belongs_to self r = true) ->
  exists g, _current_generation_id s db self = Returns g
            /\ _current_generation_id_expression (Session.generation_id s) db self
               = Some g.
Proof.
  intros Hcase. rewrite current_generation_id_related.
  destruct (_current_generation_id s db self) as [g|e] eqn:Hcur; [by exists g|].
  exfalso. unfold _current_generation_id in Hcur.
  destruct (Session.generation_id s) as [g|]; [done|].
  destruct Hcase as [[g Hg]|(r & Hin & Hb)]; [done|].
  cbn in Hcur. apply max_Raises in Hcur as [Hnil _].
  apply keys_nil_no_rows with (r := r) in Hnil; [|done]. congruence.
Qed.

(** Without either, the instance-level form raises and the expression is
    NULL. *)
Lemma current_generation_id_without_rows s db self :
  Session.generation_id s = None ->
  (forall r, r ∈ generation_pokemon_forms db -> belongs_to self r = false) ->
  _current_generation_id s db self = Raises ValueError
  /\ _current_generation_id_expression (Session.generation_id s) db self = None
  /\ types s db self = Returns None.
Proof.
  intros Hs Hnone.
  assert (Hraise : _current_generation_id s db self = Raises ValueError).
  { unfold _current_generation_id. rewrite Hs. cbn.
    apply max_Raises. split; [|done]. by apply keys_nil_no_rows. }
  assert (Hnull : _current_generation_id_expression (Session.generation_id s) db self
                  = None).
  { by rewrite current_generation_id_related, Hraise. }
  split; [done|]. split; [done|].
  apply types_absent_gpf. apply current_gpf_None. intros r _ _. by rewrite Hnull.
Qed.

(** C2. For a form without rows and a session without a generation the two
    forms of [_current_generation_id] part ways: the instance-level one
    raises ValueError from [max] over no keys, the expression evaluates to
    NULL. *)
Theorem current_generation_id_forms_part_ways :
  _current_generation_id no_generation unreleased_db unreleased_form
  = Raises ValueError
  /\ _current_generation_id_expression (Session.generation_id no_generation)
       unreleased_db unreleased_form
     = None.
Proof. split; vm_compute; reflexivity. Qed.

(** C5. For a form without any row and a session without a generation,
    accessing [types] gives [None] and raises nothing: the fallback the join
    uses, MAX over the rows of the form, is NULL over no rows, so the
    expression is NULL and no row is joined. *)
Theorem types_without_rows s db self :
  Session.generation_id s = None ->
  (forall r, r ∈ generation_pokemon_forms db ->
             ~ (GenerationPokemonForm.pokemon_id r = PokemonForm.pokemon_id self
                /\ GenerationPokemonForm.form_id r = PokemonForm.form_id self)) ->
  latest_gen db self = None
  /\ _current_generation_id_expression (Session.generation_id s) db self = None
  /\ _current_gpf s db self = None
  /\ types s db self = Returns None.
Proof.
  intros Hs Hnone.
  assert (Hno : forall r, r ∈ generation_pokemon_forms db -> belongs_to self r = false).
  { intros r Hin. destruct (belongs_to self r) eqn:Hb; [|done].
    apply belongs_to_spec in Hb. by destruct (Hnone r Hin). }
  destruct (current_generation_id_without_rows s db self Hs Hno) as (_ & Hnull & Htypes).
  assert (Hlatest : latest_gen db self = None).
  { unfold _current_generation_id_expression in Hnull. by rewrite Hs in Hnull. }
  assert (Hgpf : _current_gpf s db self = None).
  { apply current_gpf_None. intros r _ _. by rewrite Hnull. }
  done.
Qed.

Lemma types_without_rows_witness :
  latest_gen unreleased_db unreleased_form = None
  /\ types no_generation unreleased_db unreleased_form = Returns None.
Proof.
  assert (Hnone : forall r, r ∈ generation_pokemon_forms unreleased_db ->
            ~ (GenerationPokemonForm.pokemon_id r = PokemonForm.pokemon_id unreleased_form
               /\ GenerationPokemonForm.form_id r = PokemonForm.form_id unreleased_form)).
  { intros r Hr [Hp _]. apply list_elem_of_In in Hr. cbn in Hr.
    destruct Hr as [<-|[<-|[<-|[<-|[]]]]]; cbn in Hp; discriminate. }
  pose proof (types_without_rows no_generation unreleased_db unreleased_form
                eq_refl Hnone) as H.
  exact (conj (proj1 H) (proj2 (proj2 (proj2 H)))).
Defined.

(** ** INSERT and the declared constraints *)


(** C3. [GamePokemonForm] binds its table-wide constraints to the name
    [__tableargs__], so none of them is declared: a row for game 1, a game
    of generation 1, that carries generation 2 is inserted, although the
    foreign key to (games.id, games.generation_id) written there does not
    hold for it. *)
Theorem GamePokemonForm_accepts_wrong_generation :
  declared_constraints Class.GamePokemonForm = []
  /\ rows_of fixture_store "games" = [ {[ "id" := Int 1; "generation_id" := Int 1 ]} ]
  /\ get wrong_generation_row "game_id" = Int 1
  /\ get wrong_generation_row "generation_id" = Int 2
  /\ (exists games_key,
         getattr Class.GamePokemonForm "__tableargs__"
         = Some (attr_tuple [generation_pokemon_form_key; games_key])
         /\ foreign_key_holds fixture_store games_key wrong_generation_row = false)
  /\ insert_into fixture_store Class.GamePokemonForm wrong_generation_row
     = Returns (<["game_pokemon_forms" := [wrong_generation_row]]> fixture_store).
Proof.
  split; [reflexivity|]. split; [vm_compute; reflexivity|].
  split; [vm_compute; reflexivity|]. split; [vm_compute; reflexivity|].
  split; [|vm_compute; reflexivity].
  eexists. split; [reflexivity|]. vm_compute. reflexivity.
Qed.

(** C6. [GenerationPokemonForm] declares the composite key to
    [pokemon_forms] and a row for a form that does not exist is refused;
    [GamePokemonForm] declares no table-wide constraint, and a row for the
    same missing form is inserted. *)
Theorem GamePokemonForm_accepts_missing_form :
  (forall p, p ∈ rows_of fixture_store "pokemon_forms" ->
             ~ (get p "pokemon_id" = Int 999 /\ get p "form_id" = Int 7))
  /\ get orphan_game_row "pokemon_id" = Int 999
  /\ get orphan_game_row "form_id" = Int 7
  /\ insert_into fixture_store Class.GenerationPokemonForm orphan_generation_row
     = Raises IntegrityError
  /\ foreign_keys <$> __table__ Class.GamePokemonForm
     = Some [ {| sa.columns := ["game_id"]; sa.refcolumns := ["games.id"] |};
              {| sa.columns := ["generation_id"];
                 sa.refcolumns := ["generations.id"] |} ]
  /\ insert_into fixture_store Class.GamePokemonForm orphan_game_row
     = Returns (<["game_pokemon_forms" := [orphan_game_row]]> fixture_store).
Proof.
  split.
  { intros p Hp [H1 _]. apply list_elem_of_In in Hp. vm_compute in Hp.
    destruct Hp as [<-|[]]. vm_compute in H1. discriminate. }
  repeat split; vm_compute; reflexivity.
Qed.

(** ** The default form of a species *)


(** ** Localized names *)

Lemma dict_of_lookup_Some {V : Type} (items : list (Z * V)) k v :
  dict_of items !! k = Some v -> (k, v) ∈ items.
Proof.
  induction items as [|[k' v'] items IH] using rev_ind.
  - cbn. by rewrite lookup_empty.
  - rewrite dict_of_snoc, elem_of_app. destruct (decide (k' = k)) as [->|Hne].
    + rewrite lookup_insert_eq. intros [= ->]. right. apply elem_of_cons. by left.
    + rewrite lookup_insert_ne by done. intros H. left. by apply IH.
Qed.

(** C8. The lookup by language is keyed by language id; when the requested
    language has no row it fails with NotFound if no fallback language is
    configured, and returns the row of the fallback language if one is
    configured and has a row.  For a species and for a form alike, a row it
    returns is a row of that entity. *)
Theorem by_language_contract {A Name : Type} `{!ByLanguage A Name}
    (fallback : option Z) (tables : NameTables) (self : A) (l : Z) :
  _by_language tables self !! l = None ->
  (fallback = None -> by_language fallback tables self (Some l) = Raises NotFound)
  /\ (forall fb n, fallback = Some fb ->
                   _by_language tables self !! fb = Some n ->
                   by_language fallback tables self (Some l) = Returns n)
  /\ (forall fb, fallback = Some fb ->
                 _by_language tables self !! fb = None ->
                 by_language fallback tables self (Some l) = Raises NotFound)
  /\ (forall (p : Pokemon.t) k n,
         _by_language tables p !! k = Some n ->
         by_language fallback tables p (Some k) = Returns n
         /\ n ∈ pokemon_names tables
         /\ PokemonName.language_id n = k
         /\ PokemonName.pokemon_id n = Pokemon.id p)
  /\ (forall (f : PokemonForm.t) k n,
         _by_language tables f !! k = Some n ->
         by_language fallback tables f (Some k) = Returns n
         /\ n ∈ pokemon_form_names tables
         /\ PokemonFormName.language_id n = k
         /\ PokemonFormName.pokemon_id n = PokemonForm.pokemon_id f
         /\ PokemonFormName.form_id n = PokemonForm.form_id f).
Proof.
  intros Hmiss. unfold by_language. rewrite Hmiss.
  split; [by intros ->|]. split; [by intros fb n -> ->|]. split; [by intros fb -> ->|].
  split.
  - intros p k n Hn. rewrite Hn. split; [done|].
    cbn in Hn. apply dict_of_lookup_Some, list_elem_of_fmap in Hn as (n' & [= -> <-] & Hin).
    apply list_elem_of_filter in Hin as [Hp Hin]. done.
  - intros f k n Hn. rewrite Hn. split; [done|].
    cbn in Hn. apply dict_of_lookup_Some, list_elem_of_fmap in Hn as (n' & [= -> <-] & Hin).
    apply list_elem_of_filter in Hin as [[Hp Hf] Hin]. done.
Qed.

Lemma by_language_contract_witness :
  by_language None fixture_names fixture_pokemon (Some 5) = Raises NotFound
  /\ by_language (Some 9) fixture_names fixture_pokemon (Some 5) = Returns name_en.
Proof.
  split.
  - refine (proj1 (by_language_contract None fixture_names fixture_pokemon 5 _) _);
      reflexivity.
  - refine (proj1 (proj2 (by_language_contract (Some 9) fixture_names fixture_pokemon 5 _))
              9 name_en _ _); reflexivity.
Defined.

(** * Further properties of the accessors *)

(** X1. Without a session generation the instance-level
    [_current_generation_id] returns [g] exactly when the form has a row in
    generation [g] and none in a later one, and it raises, always with
    ValueError, exactly when the form has no row at all. *)
Theorem current_generation_id_fallback s db self :
  Session.generation_id s = None ->
  (forall g,
      _current_generation_id s db self = Returns g
      <-> (exists r, r ∈ generation_pokemon_forms db
                     /\ GenerationPokemonForm.pokemon_id r = PokemonForm.pokemon_id self
                     /\ GenerationPokemonForm.form_id r = PokemonForm.form_id self
                     /\ GenerationPokemonForm.generation_id r = g)
          /\ (forall r, r ∈ generation_pokemon_forms db ->
                        GenerationPokemonForm.pokemon_id r = PokemonForm.pokemon_id self ->
                        GenerationPokemonForm.form_id r = PokemonForm.form_id self ->
                        GenerationPokemonForm.generation_id r <= g))
  /\ (forall e,
         _current_generation_id s db self = Raises e
         <-> e = ValueError
             /\ forall r, r ∈ generation_pokemon_forms db ->
                          ~ (GenerationPokemonForm.pokemon_id r = PokemonForm.pokemon_id self
                             /\ GenerationPokemonForm.form_id r = PokemonForm.form_id self)).
Proof.
  intros Hs. unfold _current_generation_id. rewrite Hs. cbn. split.
  - intros g. rewrite max_Returns, elem_of_keys, by_generation_is_Some. split.
    + intros [(r & Hin & Hb & Hg) Hub]. apply belongs_to_spec in Hb as [Hp Hf].
      split; [by exists r|].
      intros r' Hin' Hp' Hf'. apply Hub.
      apply elem_of_keys, by_generation_is_Some. exists r'.
      by rewrite belongs_to_spec.
    + intros [(r & Hin & Hp & Hf & Hg) Hub]. split.
      * exists r. by rewrite belongs_to_spec.
      * intros k Hk. apply elem_of_keys, by_generation_is_Some in Hk
          as (r' & Hin' & Hb' & <-).
        apply belongs_to_spec in Hb' as [? ?]. by apply Hub.
  - intros e. rewrite max_Raises, keys_nil_no_rows. split.
    + intros [Hnone ->]. split; [done|]. intros r Hin Hb.
      apply belongs_to_spec in Hb. rewrite (Hnone r Hin) in Hb. done.
    + intros [-> Hnone]. split; [|done]. intros r Hin.
      destruct (belongs_to self r) eqn:Hb; [|done].
      apply belongs_to_spec in Hb. by destruct (Hnone r Hin).
Qed.

Lemma current_generation_id_fallback_witness :
  _current_generation_id no_generation (fixture_db [1] [2] [18]) fixture_form = Returns 5
  /\ _current_generation_id no_generation unreleased_db unreleased_form
     = Raises ValueError.
Proof.
  split.
  - apply (proj1 (current_generation_id_fallback no_generation
                    (fixture_db [1] [2] [18]) fixture_form eq_refl) 5).
    split.
    + exists (fixture_row 5 [18]). split; [|done]. apply list_elem_of_In. cbn. tauto.
    + intros r Hr Hp _. apply list_elem_of_In in Hr. cbn in Hr.
      destruct Hr as [<-|[<-|[<-|[<-|[]]]]]; cbn in *; lia.
  - apply (proj2 (current_generation_id_fallback no_generation unreleased_db
                    unreleased_form eq_refl) ValueError).
    split; [done|]. intros r Hr [Hp _]. apply list_elem_of_In in Hr. cbn in Hr.
    destruct Hr as [<-|[<-|[<-|[<-|[]]]]]; cbn in Hp; discriminate.
Defined.

(** X2. The SQL expression mirrors the instance-level property on every
    input: it has the value [g] exactly when the property returns [g], and it
    is NULL exactly when the property raises ValueError. *)
Theorem current_generation_id_expression_mirrors s db self :
  (forall g,
      _current_generation_id_expression (Session.generation_id s) db self = Some g
      <-> _current_generation_id s db self = Returns g)
  /\ (_current_generation_id_expression (Session.generation_id s) db self = None
      <-> _current_generation_id s db self = Raises ValueError).
Proof.
  rewrite current_generation_id_related.
  destruct (_current_generation_id s db self) as [g'|e] eqn:Hcur.
  - split; [|done]. intros g. split; congruence.
  - assert (e = ValueError) as ->.
    { unfold _current_generation_id in Hcur.
      destruct (Session.generation_id s); [done|].
      cbn in Hcur. by apply max_Raises in Hcur as [_ ->]. }
    split; [|done]. intros g. done.
Qed.

(** X3. The row [_current_gpf] gives is a stored row of the form itself,
    in the generation the join expression resolves to: the session's
    generation when one is set, otherwise one no row of the form exceeds.
    [types] is then the type list of that row. *)
Theorem current_gpf_is_a_row_of_the_form s db self r :
  _current_gpf s db self = Some r ->
  r ∈ generation_pokemon_forms db
  /\ GenerationPokemonForm.pokemon_id r = PokemonForm.pokemon_id self
  /\ GenerationPokemonForm.form_id r = PokemonForm.form_id self
  /\ _current_generation_id_expression (Session.generation_id s) db self
     = Some (GenerationPokemonForm.generation_id r)
  /\ types s db self = Returns (Some (GenerationPokemonForm.types r))
  /\ (forall g, Session.generation_id s = Some g ->
                GenerationPokemonForm.generation_id r = g)
  /\ (Session.generation_id s = None ->
      forall r', r' ∈ generation_pokemon_forms db ->
                 GenerationPokemonForm.pokemon_id r' = PokemonForm.pokemon_id self ->
                 GenerationPokemonForm.form_id r' = PokemonForm.form_id self ->
                 GenerationPokemonForm.generation_id r'
                 <= GenerationPokemonForm.generation_id r).
Proof.
  intros Hgpf.
  assert (Hr : r ∈ filter (fun g => is_true (primaryjoin (Session.generation_id s)
                                               db self g) = true)
                          (generation_pokemon_forms db)).
  { unfold _current_gpf in Hgpf. by apply head_Some_elem_of. }
  apply list_elem_of_filter in Hr as [Hj Hin].
  apply primaryjoin_true in Hj as [Hb He].
  apply belongs_to_spec in Hb as [Hp Hf].
  split; [done|]. split; [done|]. split; [done|]. split; [done|].
  split; [unfold types; by rewrite Hgpf|]. split.
  - intros g Hs. unfold _current_generation_id_expression in He. rewrite Hs in He.
    cbn in He. congruence.
  - intros Hs r' Hin' Hp' Hf'.
    rewrite current_generation_id_related in He.
    unfold _current_generation_id in He. rewrite Hs in He. cbn in He.
    destruct (max (keys (_by_generation db self))) as [m|] eqn:Hmax; [|done].
    injection He as <-. apply max_Returns in Hmax as [_ Hub]. apply Hub.
    apply elem_of_keys, by_generation_is_Some. exists r'. by rewrite belongs_to_spec.
Qed.

Lemma current_gpf_is_a_row_of_the_form_witness :
  fixture_row 5 [18] ∈ generation_pokemon_forms (fixture_db [1] [2] [18])
  /\ types no_generation (fixture_db [1] [2] [18]) fixture_form = Returns (Some [18]).
Proof.
  pose proof (current_gpf_is_a_row_of_the_form no_generation (fixture_db [1] [2] [18])
                fixture_form (fixture_row 5 [18]) eq_refl) as H.
  split; [exact (proj1 H)|exact (proj1 (proj2 (proj2 (proj2 (proj2 H)))))].
Defined.

Lemma filter_through {A : Type} (P Q : A -> Prop)
    `{!forall x, Decision (P x)} `{!forall x, Decision (Q x)} (l : list A) :
  (forall x, P x -> Q x) -> filter P l = filter P (filter Q l).
Proof.
  intros HPQ. rewrite list_filter_filter. apply list_filter_iff.
  intros x. split; [|tauto]. intros HP. split; [done|by apply HPQ].
Qed.

Lemma current_gpf_over_own_rows s db self :
  _current_gpf s db self
  = head (filter (fun g => is_true (primaryjoin (Session.generation_id s) db self g)
                           = true)
                 (filter (fun g => belongs_to self g = true)
                         (generation_pokemon_forms db))).
Proof.
  unfold _current_gpf. f_equal. apply filter_through.
  intros g Hg. by apply primaryjoin_true in Hg as [? _].
Qed.

(** X4. Rows of other forms play no part: two databases with the same rows
    for a form give the same per-generation collection, the same
    [all_types], the same current generation in both forms of the property,
    the same [_current_gpf] and the same [types]. *)
Theorem other_forms_play_no_part s db db' self :
  filter (fun g => belongs_to self g = true) (generation_pokemon_forms db)
  = filter (fun g => belongs_to self g = true) (generation_pokemon_forms db') ->
  _by_generation db self = _by_generation db' self
  /\ all_types db self = all_types db' self
  /\ _current_generation_id s db self = _current_generation_id s db' self
  /\ _current_generation_id_expression (Session.generation_id s) db self
     = _current_generation_id_expression (Session.generation_id s) db' self
  /\ _current_gpf s db self = _current_gpf s db' self
  /\ types s db self = types s db' self.
Proof.
  intros Hrows.
  assert (Hby : _by_generation db self = _by_generation db' self).
  { unfold _by_generation. by rewrite Hrows. }
  assert (Hcur : _current_generation_id s db self = _current_generation_id s db' self).
  { unfold _current_generation_id. by rewrite Hby. }
  assert (Hexp : _current_generation_id_expression (Session.generation_id s) db self
                 = _current_generation_id_expression (Session.generation_id s) db' self).
  { by rewrite !current_generation_id_related, Hcur. }
  assert (Hgpf : _current_gpf s db self = _current_gpf s db' self).
  { rewrite !current_gpf_over_own_rows, Hrows. f_equal.
    apply list_filter_iff. intros g. by rewrite !primaryjoin_true, Hexp. }
  split; [done|]. split; [unfold all_types; by rewrite Hby|].
  split; [done|]. split; [done|]. split; [done|].
  unfold types. by rewrite Hgpf.
Qed.

Lemma other_forms_play_no_part_witness :
  types (in_generation 3) (fixture_db [1] [2] [18]) fixture_form
  = types (in_generation 3)
      {| pokemon_forms := [fixture_form];
         generation_pokemon_forms := [fixture_row 1 [1]; fixture_row 3 [2];
                                      fixture_row 5 [18]] |}
      fixture_form.
Proof.
  apply (other_forms_play_no_part (in_generation 3) (fixture_db [1] [2] [18])
           {| pokemon_forms := [fixture_form];
              generation_pokemon_forms := [fixture_row 1 [1]; fixture_row 3 [2];
                                           fixture_row 5 [18]] |}
           fixture_form).
  reflexivity.
Defined.

(** ** A form appears in a newer generation *)

Lemma by_generation_snoc db self r :
  belongs_to self r = true ->
  _by_generation
    {| pokemon_forms := pokemon_forms db;
       generation_pokemon_forms := generation_pokemon_forms db ++ [r] |} self
  = <[GenerationPokemonForm.generation_id r := r]> (_by_generation db self).
Proof.
  intros Hb. unfold _by_generation. cbn.
  rewrite filter_app, filter_cons_True, filter_nil by done.
  rewrite fmap_app. cbn. apply dict_of_snoc.
Qed.

(** X5. When a row for the form is added in a generation later than all
    its rows so far, the primary key stays unique, [all_types] gains that
    one entry, and without a session generation the current generation and
    [types] move to the new row; under a session generation other than the
    new one [types] is what it was. *)
Theorem newer_generation_takes_over db self r :
  primary_key_unique db ->
  GenerationPokemonForm.pokemon_id r = PokemonForm.pokemon_id self ->
  GenerationPokemonForm.form_id r = PokemonForm.form_id self ->
  (forall r', r' ∈ generation_pokemon_forms db ->
              GenerationPokemonForm.pokemon_id r' = PokemonForm.pokemon_id self ->
              GenerationPokemonForm.form_id r' = PokemonForm.form_id self ->
              GenerationPokemonForm.generation_id r'
              < GenerationPokemonForm.generation_id r) ->
  let db' := {| pokemon_forms := pokemon_forms db;
                generation_pokemon_forms := generation_pokemon_forms db ++ [r] |} in
  primary_key_unique db'
  /\ all_types db' self
     = <[GenerationPokemonForm.generation_id r := GenerationPokemonForm.types r]>
         (all_types db self)
  /\ all_types db self !! GenerationPokemonForm.generation_id r = None
  /\ _current_generation_id no_generation db' self
     = Returns (GenerationPokemonForm.generation_id r)
  /\ types no_generation db' self = Returns (Some (GenerationPokemonForm.types r))
  /\ (forall g, g <> GenerationPokemonForm.generation_id r ->
                types (in_generation g) db' self = types (in_generation g) db self).
Proof.
  intros Hpk Hp Hf Hnew db'.
  assert (Hb : belongs_to self r = true) by (by apply belongs_to_spec).
  assert (Hpk' : primary_key_unique db').
  { unfold primary_key_unique, db'. cbn. rewrite fmap_app. apply NoDup_app.
    split; [done|]. split; [|apply NoDup_singleton].
    intros k Hk Hk'. apply list_elem_of_fmap in Hk as (r' & -> & Hin).
    cbn in Hk'. apply list_elem_of_singleton in Hk'.
    unfold GenerationPokemonForm.primary_key in Hk'. injection Hk' as Hg Hp' Hf'.
    specialize (Hnew r' Hin). rewrite Hp', Hf' in Hnew. specialize (Hnew Hp Hf). lia. }
  assert (Hin' : r ∈ generation_pokemon_forms db').
  { unfold db'. cbn. apply elem_of_app. right. apply elem_of_cons. by left. }
  assert (Hcur : _current_generation_id no_generation db' self
                 = Returns (GenerationPokemonForm.generation_id r)).
  { unfold _current_generation_id.
    replace (Session.generation_id no_generation) with (@None Z) by reflexivity.
    cbv beta iota zeta. apply max_Returns. split.
    - apply elem_of_keys, by_generation_is_Some. by exists r.
    - intros k Hk. apply elem_of_keys, by_generation_is_Some in Hk
        as (r' & Hr' & Hb' & <-).
      unfold db' in Hr'. cbn in Hr'. apply elem_of_app in Hr' as [Hr'|Hr'].
      + apply belongs_to_spec in Hb' as [? ?]. specialize (Hnew r' Hr'). lia.
      + apply list_elem_of_singleton in Hr' as ->. lia. }
  split; [done|]. split; [|split; [|split; [done|split]]].
  - unfold all_types, db'. rewrite by_generation_snoc by done. apply fmap_insert.
  - rewrite all_types_lookup.
    destruct (_by_generation db self !! GenerationPokemonForm.generation_id r)
      as [r'|] eqn:Hr'; [|done].
    apply (by_generation_lookup db self _ r' Hpk) in Hr' as (Hr' & Hb' & Hg).
    apply belongs_to_spec in Hb' as [? ?]. specialize (Hnew r' Hr'). lia.
  - unfold types. rewrite (current_gpf_Some no_generation db' self r); [done..|].
    change (Session.generation_id no_generation) with (@None Z).
    change (@None Z) with (Session.generation_id no_generation).
    by rewrite current_generation_id_related, Hcur.
  - intros g Hg. unfold types, _current_gpf. f_equal. f_equal.
    change (generation_pokemon_forms db') with (generation_pokemon_forms db ++ [r]).
    change (Session.generation_id (in_generation g)) with (Some g).
    rewrite filter_app, filter_cons_False, filter_nil, app_nil_r.
    + apply list_filter_iff. intros x. rewrite !primaryjoin_true.
      unfold _current_generation_id_expression. cbn [coalesce]. done.
    + rewrite primaryjoin_true. unfold _current_generation_id_expression.
      cbn [coalesce]. intros [_ [= ?]]. done.
Qed.

Lemma newer_generation_takes_over_witness :
  types no_generation
    {| pokemon_forms := [fixture_form];
       generation_pokemon_forms := fixture_rows [1] [2] [18] ++ [fixture_row 6 [18; 3]] |}
    fixture_form
  = Returns (Some [18; 3]).
Proof.
  refine (proj1 (proj2 (proj2 (proj2 (proj2
            (newer_generation_takes_over (fixture_db [1] [2] [18]) fixture_form
               (fixture_row 6 [18; 3]) _ _ _ _)))))).
  - apply fixture_primary_key_unique.
  - reflexivity.
  - reflexivity.
  - intros r' Hr' Hp _. apply list_elem_of_In in Hr'. cbn in Hr'.
    destruct Hr' as [<-|[<-|[<-|[<-|[]]]]]; cbn in *; lia.
Defined.

(** ** Nothing is lost in [all_types] *)

Lemma dict_of_size {V : Type} (items : list (Z * V)) :
  NoDup items.*1 -> size (dict_of items) = length items.
Proof.
  induction items as [|[k v] items IH] using rev_ind; intros Hnd; [done|].
  rewrite fmap_app in Hnd. apply NoDup_app in Hnd as (Hnd & Hfresh & _).
  rewrite dict_of_snoc, length_app. cbn.
  rewrite map_size_insert_None.
  - rewrite IH by done. lia.
  - destruct (dict_of items !! k) as [v'|] eqn:Hk; [|done].
    exfalso. apply (Hfresh k).
    + apply dict_of_is_Some. by exists v'.
    + cbn. apply elem_of_cons. by left.
Qed.

(** X6. Under the declared primary key [all_types] has one entry for each
    row of the form: as many entries as the form has rows. *)
Theorem all_types_has_an_entry_per_row db self :
  primary_key_unique db ->
  size (all_types db self)
  = length (filter (fun g => belongs_to self g = true) (generation_pokemon_forms db)).
Proof.
  intros Hpk. unfold all_types, _by_generation. rewrite map_size_fmap, dict_of_size.
  - by rewrite length_fmap.
  - rewrite by_generation_keys. by apply generation_ids_NoDup.
Qed.

Lemma all_types_has_an_entry_per_row_witness :
  size (all_types (fixture_db [1] [2] [18]) fixture_form) = 3%nat.
Proof.
  apply (all_types_has_an_entry_per_row (fixture_db [1] [2] [18]) fixture_form
           (fixture_primary_key_unique [1] [2] [18])).
Defined.

(** * Further properties of the declared tables *)

(** ** What each check of INSERT asks for *)

Lemma not_null_holds_spec t r :
  not_null_holds t r = true
  <-> Forall (fun nc => sa.is_nullable nc.2 = false -> get r nc.1 <> NULL)
             (table_columns t).
Proof.
  unfold not_null_holds. rewrite forallb_forall, Forall_forall.
  split; intros H nc Hin.
  - apply list_elem_of_In in Hin. specialize (H nc Hin). intros Hn Hnull.
    rewrite Hn, Hnull in H. done.
  - apply list_elem_of_In in Hin. specialize (H nc Hin).
    destruct (sa.is_nullable nc.2); [done|]. cbn.
    destruct (get r nc.1); try done. by destruct H.
Qed.

Lemma primary_key_holds_spec st t r :
  primary_key_holds st t r = true
  <-> forall p, p ∈ rows_of st (tablename t) ->
                primary_key_of t p <> primary_key_of t r.
Proof.
  unfold primary_key_holds. rewrite negb_true_iff. split.
  - intros H p Hin Heq. apply not_true_iff_false in H. apply H.
    apply existsb_exists. exists p. split; [by apply list_elem_of_In|].
    by apply bool_decide_eq_true.
  - intros H. apply not_true_iff_false. intros Hex.
    apply existsb_exists in Hex as (p & Hin & Heq).
    apply bool_decide_eq_true in Heq. apply (H p); [by apply list_elem_of_In|done].
Qed.

Lemma unique_holds_spec st t r :
  unique_holds st t r = true
  <-> Forall (fun nc => sa.unique nc.2 = true -> get r nc.1 <> NULL ->
                        forall p, p ∈ rows_of st (tablename t) ->
                                  get p nc.1 <> get r nc.1)
             (table_columns t).
Proof.
  unfold unique_holds. rewrite forallb_forall, Forall_forall.
  split; intros H nc Hin.
  - apply list_elem_of_In in Hin. specialize (H nc Hin).
    intros Hu Hnn p Hp Heq. rewrite Hu in H. cbn in H.
    destruct (is_null (get r nc.1)) eqn:Hnull.
    { destruct (get r nc.1); done. }
    cbn in H. apply negb_true_iff, not_true_iff_false in H. apply H.
    apply existsb_exists. exists p. split; [by apply list_elem_of_In|].
    by apply bool_decide_eq_true.
  - apply list_elem_of_In in Hin. specialize (H nc Hin).
    destruct (sa.unique nc.2); [|done]. cbn.
    destruct (is_null (get r nc.1)) eqn:Hnull; [done|]. cbn.
    apply negb_true_iff, not_true_iff_false. intros Hex.
    apply existsb_exists in Hex as (p & Hp & Heq). apply bool_decide_eq_true in Heq.
    apply (H eq_refl) with (p := p); [|by apply list_elem_of_In|done].
    intros Hn. by rewrite Hn in Hnull.
Qed.

Lemma foreign_key_holds_spec st fk r :
  foreign_key_holds st fk r = true
  <-> Exists (fun c => get r c = NULL) (sa.columns fk)
      \/ match split_ref <$> sa.refcolumns fk with
         | [] => True
         | (t, c) :: refs' =>
             exists p, p ∈ rows_of st t
                       /\ get p <$> c :: refs'.*2 = get r <$> sa.columns fk
         end.
Proof.
  unfold foreign_key_holds.
  assert (Hnull : existsb is_null (get r <$> sa.columns fk) = true
                  <-> Exists (fun c => get r c = NULL) (sa.columns fk)).
  { rewrite existsb_exists, Exists_exists. split.
    - intros (v & Hin & Hv). apply list_elem_of_In, list_elem_of_fmap in Hin
        as (c & -> & Hc).
      exists c. split; [done|]. by destruct (get r c).
    - intros (c & Hc & Hv). exists (get r c). split; [|by rewrite Hv].
      apply list_elem_of_In, list_elem_of_fmap. by exists c. }
  destruct (existsb is_null (get r <$> sa.columns fk)) eqn:Hex.
  - split; [|done]. intros _. left. by apply Hnull.
  - assert (Hnone : ~ Exists (fun c => get r c = NULL) (sa.columns fk)).
    { intros H. apply Hnull in H. done. }
    destruct (split_ref <$> sa.refcolumns fk) as [|[t c] refs']; [tauto|].
    rewrite existsb_exists. split.
    + intros (p & Hin & Heq). right. exists p.
      split; [by apply list_elem_of_In|by apply bool_decide_eq_true in Heq].
    + intros [H|(p & Hin & Heq)]; [done|]. exists p.
      split; [by apply list_elem_of_In|by apply bool_decide_eq_true].
Qed.

Lemma Forall_filter_fst {A B : Type} (P : A -> Prop) (Q : A * B -> Prop)
    `{!forall x, Decision (Q x)} (l : list (A * B)) :
  Forall (fun nc => Q nc -> P nc.1) l <-> Forall P (filter Q l).*1.
Proof.
  induction l as [|x l IH]; [done|].
  rewrite Forall_cons, filter_cons. destruct (decide (Q x)).
  - rewrite fmap_cons, Forall_cons, IH. tauto.
  - rewrite IH. tauto.
Qed.

Lemma check_holds_spec t r :
  check_holds t r = true
  <-> Forall (fun c => is_boolean (get r c) = true) (boolean_columns t).
Proof.
  unfold check_holds, boolean_columns. rewrite <- Forall_filter_fst.
  rewrite forallb_forall, Forall_forall. split; intros H nc Hin.
  - apply list_elem_of_In in Hin. specialize (H nc Hin). intros Hb.
    by rewrite Hb in H.
  - apply list_elem_of_In in Hin. specialize (H nc Hin).
    destruct (sa.type_ nc.2); try done. by apply H.
Qed.

Lemma insert_Raises st t r e : insert st t r = Raises e -> e = IntegrityError.
Proof. unfold insert. cbv zeta. destruct (_ && _); [done|]. by intros [= <-]. Qed.

Lemma insert_spec st t r st' :
  insert st t r = Returns st'
  <-> (not_null_holds t (with_generated_key st t r) = true
       /\ primary_key_holds st t (with_generated_key st t r) = true
       /\ unique_holds st t (with_generated_key st t r) = true
       /\ Forall (fun fk =>
                    foreign_key_holds
                      (<[tablename t := rows_of st (tablename t)
                                        ++ [with_generated_key st t r]]> st)
                      fk (with_generated_key st t r) = true)
                 (foreign_keys t)
       /\ check_holds t (with_generated_key st t r) = true)
      /\ st' = <[tablename t := rows_of st (tablename t)
                                ++ [with_generated_key st t r]]> st.
Proof.
  unfold insert. cbv zeta. rewrite Forall_forall.
  set (r1 := with_generated_key st t r).
  set (st1 := <[tablename t := rows_of st (tablename t) ++ [r1]]> st).
  destruct (not_null_holds t r1); [|cbn; split; [done|intros [(? & _) _]; done]].
  destruct (primary_key_holds st t r1);
    [|cbn; split; [done|intros [(_ & ? & _) _]; done]].
  destruct (unique_holds st t r1);
    [|cbn; split; [done|intros [(_ & _ & ? & _) _]; done]].
  cbn. destruct (forallb _ (foreign_keys t)) eqn:Hfk.
  - rewrite forallb_forall in Hfk. cbn.
    destruct (check_holds t r1);
      [|split; [done|intros [(_ & _ & _ & _ & ?) _]; done]].
    split.
    + intros [= <-]. repeat split; try done. intros fk Hin. apply Hfk.
      by apply list_elem_of_In.
    + by intros [_ ->].
  - cbn. split; [done|]. intros [(_ & _ & _ & Hall & _) _].
    apply not_true_iff_false in Hfk. destruct Hfk. apply forallb_forall.
    intros fk Hin. apply Hall. by apply list_elem_of_In.
Qed.

Lemma rows_of_insert (st : gmap string (list (gmap string value))) tn t' l :
  rows_of (<[tn := l]> st) t' = if String.eqb tn t' then l else rows_of st t'.
Proof.
  unfold rows_of. destruct (String.eqb tn t') eqn:E.
  - apply String.eqb_eq in E as ->. by rewrite lookup_insert_eq.
  - apply String.eqb_neq in E. by rewrite lookup_insert_ne.
Qed.

(** An INSERT through a mapped class succeeds exactly when, for the row with
    its key generated, the required columns are given, the primary key is
    new, the unique columns are new, every foreign key finds its row once
    the new row is in place, and the Boolean columns hold booleans. *)
Lemma insert_into_spec body t st r st' :
  __table__ body = Some t ->
  insert_into st body r = Returns st'
  <-> Forall (fun c => get (with_generated_key st t r) c <> NULL) (required_columns t)
      /\ (forall p, p ∈ rows_of st (tablename t) ->
                    get p <$> primary_key_columns t
                    <> get (with_generated_key st t r) <$> primary_key_columns t)
      /\ Forall (fun c => get (with_generated_key st t r) c <> NULL ->
                          forall p, p ∈ rows_of st (tablename t) ->
                                    get p c <> get (with_generated_key st t r) c)
                (unique_columns t)
      /\ Forall (fun fk =>
                   Exists (fun c => get (with_generated_key st t r) c = NULL)
                          (sa.columns fk)
                   \/ match split_ref <$> sa.refcolumns fk with
                      | [] => True
                      | (t', c) :: refs' =>
                          exists p,
                            p ∈ (if String.eqb (tablename t) t'
                                 then rows_of st (tablename t)
                                      ++ [with_generated_key st t r]
                                 else rows_of st t')
                            /\ get p <$> c :: refs'.*2
                               = get (with_generated_key st t r) <$> sa.columns fk
                      end)
                (foreign_keys t)
      /\ Forall (fun c => is_boolean (get (with_generated_key st t r) c) = true)
                (boolean_columns t)
      /\ st' = <[tablename t := rows_of st (tablename t)
                                ++ [with_generated_key st t r]]> st.
Proof.
  intros Ht. unfold insert_into. rewrite Ht.
  rewrite insert_spec, not_null_holds_spec, primary_key_holds_spec, unique_holds_spec,
    check_holds_spec.
  unfold required_columns, unique_columns.
  rewrite <- !Forall_filter_fst.
  set (r1 := with_generated_key st t r).
  assert (Hfk :
    Forall (fun fk =>
              foreign_key_holds
                (<[tablename t := rows_of st (tablename t) ++ [r1]]> st) fk r1 = true)
           (foreign_keys t)
    <-> Forall (fun fk =>
                  Exists (fun c => get r1 c = NULL) (sa.columns fk)
                  \/ match split_ref <$> sa.refcolumns fk with
                     | [] => True
                     | (t', c) :: refs' =>
                         exists p,
                           p ∈ (if String.eqb (tablename t) t'
                                then rows_of st (tablename t) ++ [r1]
                                else rows_of st t')
                           /\ get p <$> c :: refs'.*2 = get r1 <$> sa.columns fk
                     end) (foreign_keys t)).
  { apply Forall_iff. intros fk. rewrite foreign_key_holds_spec.
    destruct (split_ref <$> sa.refcolumns fk) as [|[t' c] refs']; [done|].
    by rewrite rows_of_insert. }
  rewrite Hfk. unfold primary_key_of, primary_key_columns. tauto.
Qed.

(** Evaluate the metadata of a concrete class inside [insert_into_spec]. *)
Ltac compute_closed f :=
  repeat match goal with
    | |- context [f ?t] =>
        let v := eval vm_compute in (f t) in
        progress change (f t) with v
    end.

Ltac compute_table :=
  unfold with_generated_key;
  compute_closed autoincrement_column;
  compute_closed required_columns;
  compute_closed primary_key_columns;
  compute_closed unique_columns;
  compute_closed boolean_columns;
  compute_closed integer_columns;
  compute_closed foreign_keys;
  compute_closed tablename;
  cbv iota beta;
  rewrite ?Forall_cons, ?Forall_nil; cbv beta;
  cbn [sa.columns sa.refcolumns];
  repeat match goal with
    | |- context [split_ref <$> ?l] =>
        let v := eval vm_compute in (split_ref <$> l) in
        change (split_ref <$> l) with v
    end;
  cbv iota beta;
  repeat match goal with
    | |- context [String.eqb ?a ?b] =>
        let v := eval vm_compute in (String.eqb a b) in
        change (String.eqb a b) with v
    end;
  cbv iota beta;
  rewrite ?Exists_cons, ?Exists_nil;
  cbn [fmap list_fmap snd].

(** ** What each table accepts *)

(** X9. An INSERT into [pokemon_names] succeeds exactly when language,
    species and name are given, the pair (language_id, pokemon_id) is new,
    and both the language and the species exist: a species has at most one
    name per language. *)
Theorem PokemonName_insert st r st' :
  insert_into st Class.PokemonName r = Returns st'
  <-> (get r "language_id" <> NULL /\ get r "pokemon_id" <> NULL
       /\ get r "name" <> NULL)
      /\ (forall p, p ∈ rows_of st "pokemon_names" ->
                    ~ (get p "language_id" = get r "language_id"
                       /\ get p "pokemon_id" = get r "pokemon_id"))
      /\ (exists l, l ∈ rows_of st "languages" /\ get l "id" = get r "language_id")
      /\ (exists p, p ∈ rows_of st "pokemon" /\ get p "id" = get r "pokemon_id")
      /\ st' = <["pokemon_names" := rows_of st "pokemon_names" ++ [r]]> st.
Proof.
  rewrite (insert_into_spec Class.PokemonName _ st r st' eq_refl).
  compute_table. split.
  - intros ((H1 & H2 & H3 & _) & Hpk & _ & (Hl & Hp & _) & _ & ->).
    repeat split; try done.
    + intros p Hin (E1 & E2). apply (Hpk p Hin). congruence.
    + destruct Hl as [[?|[]]|(l & Hin & [= E])]; [done|eauto].
    + destruct Hp as [[?|[]]|(p & Hin & [= E])]; [done|eauto].
  - intros ((H1 & H2 & H3) & Hpk & (l & Hl & El) & (p & Hp & Ep) & ->).
    repeat split; try done.
    + intros q Hq [= E1 E2]. by apply (Hpk q Hq).
    + right. exists l. split; [done|congruence].
    + right. exists p. split; [done|congruence].
Qed.

(** X11. An INSERT into [pokemon_form_names] succeeds exactly when
    language, species, form, [form_name] (the column behind the attribute
    [name]) and [full_name] are given, the key (language_id, pokemon_id,
    form_id) is new, the language exists and [pokemon_forms] holds the pair
    (pokemon_id, form_id). *)
Theorem PokemonFormName_insert st r st' :
  insert_into st Class.PokemonFormName r = Returns st'
  <-> (get r "language_id" <> NULL /\ get r "pokemon_id" <> NULL
       /\ get r "form_id" <> NULL /\ get r "form_name" <> NULL
       /\ get r "full_name" <> NULL)
      /\ (forall p, p ∈ rows_of st "pokemon_form_names" ->
                    ~ (get p "language_id" = get r "language_id"
                       /\ get p "pokemon_id" = get r "pokemon_id"
                       /\ get p "form_id" = get r "form_id"))
      /\ (exists l, l ∈ rows_of st "languages" /\ get l "id" = get r "language_id")
      /\ (exists f, f ∈ rows_of st "pokemon_forms"
                    /\ get f "pokemon_id" = get r "pokemon_id"
                    /\ get f "form_id" = get r "form_id")
      /\ st' = <["pokemon_form_names" := rows_of st "pokemon_form_names" ++ [r]]> st.
Proof.
  rewrite (insert_into_spec Class.PokemonFormName _ st r st' eq_refl).
  compute_table. split.
  - intros ((H1 & H2 & H3 & H4 & H5 & _) & Hpk & _ & (Hl & Hf & _) & _ & ->).
    repeat split; try done.
    + intros p Hin (E1 & E2 & E3). apply (Hpk p Hin). congruence.
    + destruct Hl as [[?|[]]|(l & Hin & [= E])]; [done|eauto].
    + destruct Hf as [[?|[?|[]]]|(f & Hin & [= E1 E2])]; [done|done|eauto].
  - intros ((H1 & H2 & H3 & H4 & H5) & Hpk & (l & Hl & El) & (f & Hf & E1 & E2) & ->).
    repeat split; try done.
    + intros q Hq [= ? ? ?]. by apply (Hpk q Hq).
    + right. exists l. split; [done|congruence].
    + right. exists f. split; [done|congruence].
Qed.

(** X12. An INSERT into [generation_pokemon] succeeds exactly when
    generation and species are given, the pair is new, and both the
    generation and the species exist. *)
Theorem GenerationPokemon_insert st r st' :
  insert_into st Class.GenerationPokemon r = Returns st'
  <-> (get r "generation_id" <> NULL /\ get r "pokemon_id" <> NULL)
      /\ (forall p, p ∈ rows_of st "generation_pokemon" ->
                    ~ (get p "generation_id" = get r "generation_id"
                       /\ get p "pokemon_id" = get r "pokemon_id"))
      /\ (exists g, g ∈ rows_of st "generations" /\ get g "id" = get r "generation_id")
      /\ (exists p, p ∈ rows_of st "pokemon" /\ get p "id" = get r "pokemon_id")
      /\ st' = <["generation_pokemon" := rows_of st "generation_pokemon" ++ [r]]> st.
Proof.
  rewrite (insert_into_spec Class.GenerationPokemon _ st r st' eq_refl).
  compute_table. split.
  - intros ((H1 & H2 & _) & Hpk & _ & (Hg & Hp & _) & _ & ->).
    repeat split; try done.
    + intros p Hin (E1 & E2). apply (Hpk p Hin). congruence.
    + destruct Hg as [[?|[]]|(g & Hin & [= E])]; [done|eauto].
    + destruct Hp as [[?|[]]|(p & Hin & [= E])]; [done|eauto].
  - intros ((H1 & H2) & Hpk & (g & Hg & Eg) & (p & Hp & Ep) & ->).
    repeat split; try done.
    + intros q Hq [= ? ?]. by apply (Hpk q Hq).
    + right. exists g. split; [done|congruence].
    + right. exists p. split; [done|congruence].
Qed.

(** X13. An INSERT into [generation_pokemon_forms] succeeds exactly when
    generation, species and form are given, the triple is new, the
    generation exists, [pokemon_forms] holds the pair (pokemon_id, form_id)
    and [generation_pokemon] holds the pair (generation_id, pokemon_id): a
    form is only stored for a generation its species is stored for. *)
Theorem GenerationPokemonForm_insert st r st' :
  insert_into st Class.GenerationPokemonForm r = Returns st'
  <-> (get r "generation_id" <> NULL /\ get r "pokemon_id" <> NULL
       /\ get r "form_id" <> NULL)
      /\ (forall p, p ∈ rows_of st "generation_pokemon_forms" ->
                    ~ (get p "generation_id" = get r "generation_id"
                       /\ get p "pokemon_id" = get r "pokemon_id"
                       /\ get p "form_id" = get r "form_id"))
      /\ (exists g, g ∈ rows_of st "generations" /\ get g "id" = get r "generation_id")
      /\ (exists f, f ∈ rows_of st "pokemon_forms"
                    /\ get f "pokemon_id" = get r "pokemon_id"
                    /\ get f "form_id" = get r "form_id")
      /\ (exists gp, gp ∈ rows_of st "generation_pokemon"
                     /\ get gp "generation_id" = get r "generation_id"
                     /\ get gp "pokemon_id" = get r "pokemon_id")
      /\ st' = <["generation_pokemon_forms"
                 := rows_of st "generation_pokemon_forms" ++ [r]]> st.
Proof.
  rewrite (insert_into_spec Class.GenerationPokemonForm _ st r st' eq_refl).
  compute_table. split.
  - intros ((H1 & H2 & H3 & _) & Hpk & _ & (Hg & Hf & Hgp & _) & _ & ->).
    repeat split; try done.
    + intros p Hin (E1 & E2 & E3). apply (Hpk p Hin). congruence.
    + destruct Hg as [[?|[]]|(g & Hin & [= E])]; [done|eauto].
    + destruct Hf as [[?|[?|[]]]|(f & Hin & [= E1 E2])]; [done|done|eauto].
    + destruct Hgp as [[?|[?|[]]]|(gp & Hin & [= E1 E2])]; [done|done|eauto].
  - intros ((H1 & H2 & H3) & Hpk & (g & Hg & Eg) & (f & Hf & F1 & F2)
            & (gp & Hgp & G1 & G2) & ->).
    repeat split; try done.
    + intros q Hq [= ? ? ?]. by apply (Hpk q Hq).
    + right. exists g. split; [done|congruence].
    + right. exists f. split; [done|congruence].
    + right. exists gp. split; [done|congruence].
Qed.

(** ** Loading a table row by row *)

Lemma rows_of_insert_eq (st : gmap string (list (gmap string value))) tn l :
  rows_of (<[tn := l]> st) tn = l.
Proof. unfold rows_of. by rewrite lookup_insert_eq. Qed.

Lemma rows_of_insert_ne (st : gmap string (list (gmap string value))) tn t' l :
  tn <> t' -> rows_of (<[tn := l]> st) t' = rows_of st t'.
Proof. intros Hne. unfold rows_of. by rewrite lookup_insert_ne. Qed.

Lemma with_generated_key_none st t r :
  autoincrement_column t = None -> with_generated_key st t r = r.
Proof. intros H. unfold with_generated_key. by rewrite H. Qed.

(** A load that succeeds into a table without a generated key appends the
    rows to the table of the class, leaves the other tables alone, keeps the
    primary key unique, and has passed every row through an INSERT against a
    store whose other tables are those of the start. *)
Lemma load_spec body t rows :
  __table__ body = Some t ->
  autoincrement_column t = None ->
  forall st st',
    load st body rows = Returns st' ->
    rows_of st' (tablename t) = rows_of st (tablename t) ++ rows
    /\ (forall t', t' <> tablename t -> rows_of st' t' = rows_of st t')
    /\ (NoDup ((fun p => get p <$> primary_key_columns t) <$> rows_of st (tablename t)) ->
        NoDup ((fun p => get p <$> primary_key_columns t) <$> rows_of st' (tablename t)))
    /\ Forall (fun r => exists st0 st1,
                          insert_into st0 body r = Returns st1
                          /\ forall t', t' <> tablename t ->
                                        rows_of st0 t' = rows_of st t') rows.
Proof.
  intros Ht Hauto. induction rows as [|r rows IH]; intros st st' Hload; cbn in Hload.
  - injection Hload as <-. rewrite app_nil_r. done.
  - destruct (insert_into st body r) as [st1|e] eqn:Hins; [|done].
    pose proof Hins as Hins'.
    apply (insert_into_spec body t st r st1 Ht) in Hins' as (_ & Hpk & _ & _ & _ & ->).
    rewrite (with_generated_key_none st t r Hauto) in *.
    destruct (IH _ _ Hload) as (Hrows & Hother & Hnd & Hall).
    rewrite rows_of_insert_eq in Hrows, Hnd.
    split; [by rewrite Hrows, <- app_assoc|]. split; [|split].
    + intros t' Hne. rewrite (Hother t' Hne). by apply rows_of_insert_ne.
    + intros Hnd0. apply Hnd. rewrite fmap_app. apply NoDup_app.
      split; [done|]. split; [|apply NoDup_singleton].
      intros k Hk Hk'. apply list_elem_of_fmap in Hk as (p & -> & Hp).
      cbn in Hk'. apply list_elem_of_singleton in Hk'. by apply (Hpk p Hp).
    + apply Forall_cons. split; [eexists st, _; split; [exact Hins|done]|].
      eapply Forall_impl; [exact Hall|]. cbn.
      intros r' (st0 & st2 & Hins2 & Hsame). exists st0, st2. split; [done|].
      intros t' Hne. rewrite (Hsame t' Hne). by apply rows_of_insert_ne.
Qed.

Lemma GenerationPokemonForm_row_key (o : GenerationPokemonForm.t) :
  get (GenerationPokemonForm_row o) <$> ["generation_id"; "pokemon_id"; "form_id"]
  = [Int (GenerationPokemonForm.generation_id o);
     Int (GenerationPokemonForm.pokemon_id o);
     Int (GenerationPokemonForm.form_id o)].
Proof. reflexivity. Qed.

(** X14. Mapped rows that [generation_pokemon_forms] has accepted, one
    INSERT after the other into an empty table, have pairwise different
    primary keys: the uniqueness the accessors rely on is the one the
    declared primary key enforces.  The table then holds exactly their
    stored rows, in order. *)
Theorem accepted_rows_have_unique_keys st st' forms (objs : list GenerationPokemonForm.t) :
  rows_of st "generation_pokemon_forms" = [] ->
  load st Class.GenerationPokemonForm (GenerationPokemonForm_row <$> objs) = Returns st' ->
  primary_key_unique {| pokemon_forms := forms; generation_pokemon_forms := objs |}
  /\ rows_of st' "generation_pokemon_forms" = GenerationPokemonForm_row <$> objs.
Proof.
  intros Hempty Hload.
  destruct (load_spec Class.GenerationPokemonForm _ _ eq_refl eq_refl _ _ Hload)
    as (Hrows & _ & Hnd & _).
  change (tablename _) with "generation_pokemon_forms" in Hrows, Hnd.
  rewrite Hempty in Hrows, Hnd. cbn [app] in Hrows.
  split; [|done].
  rewrite Hrows in Hnd. specialize (Hnd (NoDup_nil_2)).
  unfold primary_key_unique. cbn [generation_pokemon_forms].
  rewrite <- list_fmap_compose in Hnd.
  apply (NoDup_fmap_1 (fun k : Z * Z * Z => [Int k.1.1; Int k.1.2; Int k.2])).
  rewrite <- list_fmap_compose.
  erewrite list_fmap_ext; [exact Hnd|].
  intros i o _. symmetry. apply GenerationPokemonForm_row_key.
Qed.

Lemma accepted_rows_have_unique_keys_witness :
  primary_key_unique
    {| pokemon_forms := [fixture_form];
       generation_pokemon_forms := [fixture_row 1 [1]; fixture_row 2 [1]] |}.
Proof.
  assert (Hload :
    load store_before_forms_by_generation Class.GenerationPokemonForm
      (GenerationPokemonForm_row <$> [fixture_row 1 [1]; fixture_row 2 [1]])
    = Returns (<["generation_pokemon_forms"
                 := GenerationPokemonForm_row <$> [fixture_row 1 [1]; fixture_row 2 [1]]]>
                 store_before_forms_by_generation)).
  { vm_compute. reflexivity. }
  exact (proj1 (accepted_rows_have_unique_keys store_before_forms_by_generation _
                  [fixture_form] [fixture_row 1 [1]; fixture_row 2 [1]]
                  eq_refl Hload)).
Defined.

Lemma GenerationPokemonForm_insert_references st r st' :
  insert_into st Class.GenerationPokemonForm r = Returns st' ->
  (exists g, g ∈ rows_of st "generations" /\ get g "id" = get r "generation_id")
  /\ (exists f, f ∈ rows_of st "pokemon_forms"
                /\ get f "pokemon_id" = get r "pokemon_id"
                /\ get f "form_id" = get r "form_id")
  /\ (exists gp, gp ∈ rows_of st "generation_pokemon"
                 /\ get gp "generation_id" = get r "generation_id"
                 /\ get gp "pokemon_id" = get r "pokemon_id").
Proof.
  rewrite (insert_into_spec Class.GenerationPokemonForm _ st r st' eq_refl).
  compute_table.
  intros ((H1 & H2 & H3 & _) & _ & _ & (Hg & Hf & Hgp & _) & _ & _).
  split; [|split].
  - destruct Hg as [[?|[]]|(g & Hin & [= E])]; [done|eauto].
  - destruct Hf as [[?|[?|[]]]|(f & Hin & [= E1 E2])]; [done|done|eauto].
  - destruct Hgp as [[?|[?|[]]]|(gp & Hin & [= E1 E2])]; [done|done|eauto].
Qed.

(** X15. After a load of mapped rows into [generation_pokemon_forms] has
    succeeded, every one of them is backed by the store the load started
    from: its generation is in [generations], its form in [pokemon_forms]
    and its species, for that generation, in [generation_pokemon]. *)
Theorem loaded_rows_are_backed st st' (objs : list GenerationPokemonForm.t) o :
  load st Class.GenerationPokemonForm (GenerationPokemonForm_row <$> objs) = Returns st' ->
  o ∈ objs ->
  (exists g, g ∈ rows_of st "generations"
             /\ get g "id" = Int (GenerationPokemonForm.generation_id o))
  /\ (exists f, f ∈ rows_of st "pokemon_forms"
                /\ get f "pokemon_id" = Int (GenerationPokemonForm.pokemon_id o)
                /\ get f "form_id" = Int (GenerationPokemonForm.form_id o))
  /\ (exists gp, gp ∈ rows_of st "generation_pokemon"
                 /\ get gp "generation_id" = Int (GenerationPokemonForm.generation_id o)
                 /\ get gp "pokemon_id" = Int (GenerationPokemonForm.pokemon_id o)).
Proof.
  intros Hload Ho.
  destruct (load_spec Class.GenerationPokemonForm _ _ eq_refl eq_refl _ _ Hload)
    as (_ & _ & _ & Hall).
  rewrite Forall_forall in Hall.
  destruct (Hall (GenerationPokemonForm_row o)) as (st0 & st1 & Hins & Hsame).
  { by apply list_elem_of_fmap_2. }
  change (tablename _) with "generation_pokemon_forms" in Hsame.
  apply GenerationPokemonForm_insert_references in Hins as (Hg & Hf & Hgp).
  rewrite !Hsame in Hg, Hf, Hgp by done.
  change (get (GenerationPokemonForm_row o) "generation_id")
    with (Int (GenerationPokemonForm.generation_id o)) in *.
  change (get (GenerationPokemonForm_row o) "pokemon_id")
    with (Int (GenerationPokemonForm.pokemon_id o)) in *.
  change (get (GenerationPokemonForm_row o) "form_id")
    with (Int (GenerationPokemonForm.form_id o)) in *.
  done.
Qed.

Lemma loaded_rows_are_backed_witness :
  exists f, f ∈ rows_of store_before_forms_by_generation "pokemon_forms"
            /\ get f "pokemon_id" = Int 35 /\ get f "form_id" = Int 0.
Proof.
  assert (Hload :
    load store_before_forms_by_generation Class.GenerationPokemonForm
      (GenerationPokemonForm_row <$> [fixture_row 1 [1]; fixture_row 2 [1]])
    = Returns (<["generation_pokemon_forms"
                 := GenerationPokemonForm_row <$> [fixture_row 1 [1]; fixture_row 2 [1]]]>
                 store_before_forms_by_generation)).
  { vm_compute. reflexivity. }
  assert (Hin : fixture_row 2 [1] ∈ [fixture_row 1 [1]; fixture_row 2 [1]]).
  { apply list_elem_of_In. cbn. tauto. }
  exact (proj1 (proj2 (loaded_rows_are_backed store_before_forms_by_generation _
                         [fixture_row 1 [1]; fixture_row 2 [1]] (fixture_row 2 [1])
                         Hload Hin))).
Defined.

(** ** The join behind [_current_gpf] *)

(** X16. Under the declared primary key the join of [_current_gpf] yields
    at most one row for a form, so taking the first one ([uselist=False])
    drops nothing: the joined rows are exactly the row [_current_gpf]
    gives, if any. *)
Theorem current_gpf_join_is_single s db self :
  primary_key_unique db ->
  filter (fun g => is_true (primaryjoin (Session.generation_id s) db self g) = true)
         (generation_pokemon_forms db)
  = match _current_gpf s db self with
    | Some r => [r]
    | None => []
    end.
Proof.
  intros Hpk. unfold _current_gpf.
  destruct (filter _ (generation_pokemon_forms db)) as [|a rest] eqn:Hf; [done|].
  cbn [head]. rewrite <- Hf.
  assert (Ha : a ∈ filter (fun g => is_true (primaryjoin (Session.generation_id s)
                                               db self g) = true)
                          (generation_pokemon_forms db)).
  { rewrite Hf. apply elem_of_cons. by left. }
  apply list_elem_of_filter in Ha as [Hj Hin].
  apply primaryjoin_true in Hj as [Hb He].
  apply (filter_by_key GenerationPokemonForm.primary_key); [done|done|].
  intros x Hx. rewrite primaryjoin_true, He.
  apply belongs_to_spec in Hb as [Hb1 Hb2]. rewrite belongs_to_spec.
  unfold GenerationPokemonForm.primary_key. split.
  - intros [[H1 H2] [= H3]]. congruence.
  - intros [= H1 H2 H3]. rewrite H1, H2, H3. done.
Qed.

Lemma current_gpf_join_is_single_witness :
  filter (fun g => is_true (primaryjoin (Some 3) (fixture_db [1] [2] [18])
                              fixture_form g) = true)
         (fixture_rows [1] [2] [18])
  = [fixture_row 3 [2]].
Proof.
  exact (current_gpf_join_is_single (in_generation 3) (fixture_db [1] [2] [18])
           fixture_form (fixture_primary_key_unique [1] [2] [18])).
Defined.

(** ** What a refused INSERT into [generation_pokemon_forms] lacks *)

(** The composite key of [GenerationPokemonForm] is declared and enforced:
    without a matching row in [pokemon_forms] the INSERT fails. *)
Lemma GenerationPokemonForm_needs_its_form st r :
  (forall p, p ∈ rows_of st "pokemon_forms" ->
             ~ (get p "pokemon_id" = get r "pokemon_id"
                /\ get p "form_id" = get r "form_id")) ->
  insert_into st Class.GenerationPokemonForm r = Raises IntegrityError.
Proof.
  intros Hno.
  destruct (insert_into st Class.GenerationPokemonForm r) as [st'|e] eqn:Hins.
  - apply GenerationPokemonForm_insert_references in Hins as (_ & (f & Hf & E) & _).
    by destruct (Hno f Hf).
  - f_equal. unfold insert_into in Hins.
    destruct (__table__ Class.GenerationPokemonForm); [|congruence].
    by apply insert_Raises in Hins.
Qed.

(** ** The default flag *)





(** ** Adding a row: bind, then INSERT *)

Lemma in_int64_spec z : in_int64 z = true <-> - 2 ^ 63 <= z < 2 ^ 63.
Proof. unfold in_int64. rewrite andb_true_iff, Z.leb_le, Z.ltb_lt. done. Qed.

Lemma bind_Returns t r r' :
  bind t r = Returns r'
  <-> r' = r
      /\ Forall (fun c => forall z, get r c = Int z -> - 2 ^ 63 <= z < 2 ^ 63)
                (integer_columns t).
Proof.
  unfold bind, integer_columns. rewrite <- Forall_filter_fst.
  destruct (forallb _ (table_columns t)) eqn:Hall.
  - rewrite forallb_forall in Hall. split; [|by intros [-> _]].
    intros [= <-]. split; [done|]. apply Forall_forall. intros nc Hin Hty z Hz.
    apply list_elem_of_In in Hin. specialize (Hall nc Hin).
    rewrite Hty, Hz in Hall. by apply in_int64_spec.
  - split; [done|]. intros [_ HF]. apply not_true_iff_false in Hall. destruct Hall.
    apply forallb_forall. intros nc Hin. apply list_elem_of_In in Hin.
    rewrite Forall_forall in HF. specialize (HF nc Hin).
    destruct (sa.type_ nc.2) eqn:Hty; try done.
    destruct (get r nc.1) as [|z| |] eqn:Hz; try done.
    apply in_int64_spec. by apply HF.
Qed.

(** Adding succeeds exactly when the integers of the Integer columns fit 64
    bits and the INSERT of the row succeeds. *)
Lemma add_spec body t st r st' :
  __table__ body = Some t ->
  add st body r = Returns st'
  <-> Forall (fun c => forall z, get r c = Int z -> - 2 ^ 63 <= z < 2 ^ 63)
             (integer_columns t)
      /\ insert_into st body r = Returns st'.
Proof.
  intros Ht. unfold add, insert_into. rewrite Ht.
  destruct (bind t r) as [r'|e] eqn:Hb.
  - apply bind_Returns in Hb as [-> HF]. tauto.
  - split; [done|]. intros [HF _].
    assert (Hr : bind t r = Returns r) by (by apply bind_Returns).
    congruence.
Qed.

(** X7. When adding a row to [game_pokemon_forms] succeeds, the four
    required columns were given, every integer in the row fits 64 bits, the
    key (game_id, pokemon_id, form_id) was new, [games] holds the game and
    [generations] holds the generation, and the row has been appended. *)
Theorem GamePokemonForm_add st r st' :
  add st Class.GamePokemonForm r = Returns st' ->
  (get r "game_id" <> NULL /\ get r "pokemon_id" <> NULL
   /\ get r "form_id" <> NULL /\ get r "generation_id" <> NULL)
  /\ (forall c z,
         c ∈ ["game_id"; "pokemon_id"; "form_id"; "generation_id";
              "ingame_internal_id"] ->
         get r c = Int z -> - 2 ^ 63 <= z < 2 ^ 63)
  /\ (forall p, p ∈ rows_of st "game_pokemon_forms" ->
                ~ (get p "game_id" = get r "game_id"
                   /\ get p "pokemon_id" = get r "pokemon_id"
                   /\ get p "form_id" = get r "form_id"))
  /\ (exists g, g ∈ rows_of st "games" /\ get g "id" = get r "game_id")
  /\ (exists g, g ∈ rows_of st "generations" /\ get g "id" = get r "generation_id")
  /\ st' = <["game_pokemon_forms" := rows_of st "game_pokemon_forms" ++ [r]]> st.
Proof.
  rewrite (add_spec Class.GamePokemonForm _ st r st' eq_refl).
  rewrite (insert_into_spec Class.GamePokemonForm _ st r st' eq_refl).
  compute_table.
  intros ((I1 & I2 & I3 & I4 & I5 & _)
          & (H1 & H2 & H3 & H4 & _) & Hpk & _ & (Hg & Hgen & _) & _ & ->).
  split; [done|]. split; [|split; [|split; [|split; [|done]]]].
  - intros col z Hc. rewrite !elem_of_cons, elem_of_nil in Hc.
    destruct Hc as [->|[->|[->|[->|[->|[]]]]]]; eauto.
  - intros p Hp (E1 & E2 & E3). apply (Hpk p Hp). congruence.
  - destruct Hg as [[?|[]]|(g & Hin & [= E])]; [done|eauto].
  - destruct Hgen as [[?|[]]|(g & Hin & [= E])]; [done|eauto].
Qed.

Lemma GamePokemonForm_add_witness :
  (exists g, g ∈ rows_of fixture_store "games" /\ get g "id" = Int 1)
  /\ (forall z, Int 999 = Int z -> - 2 ^ 63 <= z < 2 ^ 63).
Proof.
  assert (Hadd :
    add fixture_store Class.GamePokemonForm orphan_game_row
    = Returns (<["game_pokemon_forms" := [orphan_game_row]]> fixture_store)).
  { vm_compute. reflexivity. }
  pose proof (GamePokemonForm_add fixture_store orphan_game_row _ Hadd)
    as (_ & Hrange & _ & Hgame & _).
  split; [exact Hgame|].
  intros z. apply (Hrange "pokemon_id" z). apply list_elem_of_In. cbn. tauto.
Defined.

(** X10. When adding a row to [pokemon_forms] succeeds, all five columns
    were given, its integers fit 64 bits, [is_default] holds a boolean (True,
    False, 1 or 0), the pair (pokemon_id, form_id) was new, identifier and
    order were new among all forms of all species, the species exists, and
    the row has been appended. *)
Theorem PokemonForm_add st r st' :
  add st Class.PokemonForm r = Returns st' ->
  (get r "pokemon_id" <> NULL /\ get r "form_id" <> NULL
   /\ get r "identifier" <> NULL /\ get r "is_default" <> NULL
   /\ get r "order" <> NULL)
  /\ (forall c z, c ∈ ["pokemon_id"; "form_id"; "order"] ->
                  get r c = Int z -> - 2 ^ 63 <= z < 2 ^ 63)
  /\ ((exists b, get r "is_default" = Bool b)
      \/ get r "is_default" = Int 0 \/ get r "is_default" = Int 1)
  /\ (forall p, p ∈ rows_of st "pokemon_forms" ->
                ~ (get p "pokemon_id" = get r "pokemon_id"
                   /\ get p "form_id" = get r "form_id"))
  /\ (forall p, p ∈ rows_of st "pokemon_forms" ->
                get p "identifier" <> get r "identifier")
  /\ (forall p, p ∈ rows_of st "pokemon_forms" -> get p "order" <> get r "order")
  /\ (exists p, p ∈ rows_of st "pokemon" /\ get p "id" = get r "pokemon_id")
  /\ st' = <["pokemon_forms" := rows_of st "pokemon_forms" ++ [r]]> st.
Proof.
  rewrite (add_spec Class.PokemonForm _ st r st' eq_refl).
  rewrite (insert_into_spec Class.PokemonForm _ st r st' eq_refl).
  compute_table.
  intros ((I1 & I2 & I3 & _)
          & (H1 & H2 & H3 & H4 & H5 & _) & Hpk & (Hu1 & Hu2 & _) & (Hp & _)
          & (Hb & _) & ->).
  split; [done|].
  split; [|split; [|split; [|split; [|split; [|split; [|done]]]]]].
  - intros col z Hc. rewrite !elem_of_cons, elem_of_nil in Hc.
    destruct Hc as [->|[->|[->|[]]]]; eauto.
  - destruct (get r "is_default") as [|z|s|b]; cbn in Hb; try done.
    + apply bool_decide_eq_true in Hb as [->| ->]; tauto.
    + left. by exists b.
  - intros p Hin (E1 & E2). apply (Hpk p Hin). congruence.
  - by apply Hu1.
  - by apply Hu2.
  - destruct Hp as [[?|[]]|(p & Hin & [= E])]; [done|eauto].
Qed.

Lemma PokemonForm_add_witness :
  (exists b, get (PokemonForm_row second_default_form) "is_default" = Bool b)
  \/ get (PokemonForm_row second_default_form) "is_default" = Int 0
  \/ get (PokemonForm_row second_default_form) "is_default" = Int 1.
Proof.
  assert (Hadd :
    add fixture_store Class.PokemonForm (PokemonForm_row second_default_form)
    = Returns (<["pokemon_forms" := rows_of fixture_store "pokemon_forms"
                 ++ [PokemonForm_row second_default_form]]> fixture_store)).
  { vm_compute. reflexivity. }
  exact (proj1 (proj2 (proj2
           (PokemonForm_add fixture_store (PokemonForm_row second_default_form) _ Hadd)))).
Defined.

(** X8. When adding a row to [pokemon] succeeds, one row has been appended:
    the given row when it carries an id, and otherwise the given row under a
    generated id.  In that stored row id, identifier and order are given and
    were each new in the table; the integers of the given row fit 64 bits;
    and the pre-evolution is NULL or the id of a species that is stored once
    the row is in place, the row itself included. *)
Theorem Pokemon_add st r st' :
  add st Class.Pokemon r = Returns st' ->
  exists r1,
    st' = <["pokemon" := rows_of st "pokemon" ++ [r1]]> st
    /\ (get r "id" <> NULL -> r1 = r)
    /\ (get r "id" = NULL -> exists k, r1 = <["id" := Int k]> r)
    /\ (get r1 "id" <> NULL /\ get r1 "identifier" <> NULL /\ get r1 "order" <> NULL)
    /\ (forall c z, c ∈ ["id"; "preevolution_id"; "order"] ->
                    get r c = Int z -> - 2 ^ 63 <= z < 2 ^ 63)
    /\ (forall p, p ∈ rows_of st "pokemon" -> get p "id" <> get r1 "id")
    /\ (forall p, p ∈ rows_of st "pokemon" ->
                  get p "identifier" <> get r1 "identifier")
    /\ (forall p, p ∈ rows_of st "pokemon" -> get p "order" <> get r1 "order")
    /\ (get r1 "preevolution_id" = NULL
        \/ exists p, p ∈ rows_of st "pokemon" ++ [r1]
                     /\ get p "id" = get r1 "preevolution_id").
Proof.
  rewrite (add_spec Class.Pokemon _ st r st' eq_refl).
  rewrite (insert_into_spec Class.Pokemon _ st r st' eq_refl).
  compute_table.
  set (r1 := if is_null (get r "id")
             then <["id" := Int (next_rowid (rows_of st "pokemon") "id")]> r
             else r).
  intros ((I1 & I2 & I3 & _)
          & (H1 & H2 & H3 & _) & Hpk & (Hu1 & Hu2 & _) & (Hfk & _) & _ & ->).
  exists r1. split; [done|].
  split; [|split; [|split; [done|split; [|split; [|split; [|split]]]]]].
  - intros Hid. unfold r1. by destruct (get r "id").
  - intros Hid. unfold r1. rewrite Hid. cbn. by eexists.
  - intros col z Hc. rewrite !elem_of_cons, elem_of_nil in Hc.
    destruct Hc as [->|[->|[->|[]]]]; eauto.
  - intros p Hp E. apply (Hpk p Hp). congruence.
  - by apply Hu1.
  - by apply Hu2.
  - destruct Hfk as [[?|[]]|(p & Hin & [= E])]; [by left|right; eauto].
Qed.

Lemma Pokemon_add_witness :
  exists r1,
    get r1 "id" <> NULL
    /\ (get r1 "preevolution_id" = NULL
        \/ exists p, p ∈ rows_of fixture_store "pokemon" ++ [r1]
                     /\ get p "id" = get r1 "preevolution_id").
Proof.
  assert (Hadd :
    add fixture_store Class.Pokemon row_without_id
    = Returns (<["pokemon" := rows_of fixture_store "pokemon"
                 ++ [<["id" := Int 36]> row_without_id]]> fixture_store)).
  { vm_compute. reflexivity. }
  destruct (Pokemon_add fixture_store row_without_id _ Hadd)
    as (r1 & _ & _ & _ & (Hid & _) & _ & _ & _ & _ & Hpre).
  exists r1. exact (conj Hid Hpre).
Defined.

(** Four rows at the edges: a species that names itself as its pre-evolution
    is stored; a species without an id is stored under the next id; an order
    beyond 64 bits raises OverflowError; a default flag of 2 is refused. *)
Lemma adding_edge_rows :
  add fixture_store Class.Pokemon self_evolving_row
  = Returns (<["pokemon" := rows_of fixture_store "pokemon" ++ [self_evolving_row]]>
               fixture_store)
  /\ add fixture_store Class.Pokemon row_without_id
     = Returns (<["pokemon" := rows_of fixture_store "pokemon"
                 ++ [<["id" := Int 36]> row_without_id]]> fixture_store)
  /\ add fixture_store Class.Pokemon row_beyond_int64 = Raises OverflowError
  /\ add fixture_store Class.PokemonForm row_with_flag_2 = Raises IntegrityError.
Proof. repeat split; vm_compute; reflexivity. Qed.
